(** * MCP manager: port allocation and server process lifecycle

    A shallow embedding of [mcp_manager/core/port_manager.py],
    [mcp_manager/core/registry.py], [mcp_manager/core/server_manager.py]
    and [mcp_manager/core/template_store.py].

    Python integers are [Z] and strings are held as their UTF-8 bytes; the
    registry file, the sockets and the subprocesses are an explicit world
    that every method threads through a small state monad. A dictionary
    whose order of items decides nothing (the registry's allocations, the
    environment) is a [gmap string _]; a dictionary that the code walks
    through item by item (["mcpServers"], the tables [servers] and
    [server_logs]) keeps its items in insertion order.

    JSON documents have the shape the program writes: base ports are
    integers, arguments are strings. Exceptions are modelled where the code
    catches them and where they leave the method unhandled. *)

From stdpp Require Import gmap strings list fin_maps pretty.
From Stdlib Require Import ZArith Lia Ascii.

Local Open Scope Z_scope.

(** ** A state monad for methods that read and write the world *)

Definition State (S A : Type) : Type := S → A * S.

Definition ret {S A} (a : A) : State S A := λ s, (a, s).

Definition bind {S A B} (m : State S A) (k : A → State S B) : State S B :=
  λ s, let (a, s') := m s in k a s'.

Notation "x <~ m ;; k" := (bind m (λ x, k))
  (at level 100, m at next level, right associativity).
Notation "m ;;; k" := (bind m (λ _, k))
  (at level 100, right associativity).

(** What [os.path.exists] and [json.load] see at a path. *)
Inductive File (A : Type) : Type :=
  | Missing                (* no file at the path *)
  | Garbled                (* a file that [json.load] rejects *)
  | Stored (doc : A).      (* a file holding the JSON document [doc] *)
Arguments Missing {A}.
Arguments Garbled {A}.
Arguments Stored {A} doc.

(** ** port_manager.py *)

Module PortManager.

(** Class constants. *)
Definition MCP_BASE_PORT : Z := 9000.
Definition MCP_PORT_RANGE : Z := 100.

(** The registry document: a JSON object whose key ["allocated_ports"]
    (possibly absent) maps instance names to integer base ports. *)
Record Registry : Type := { allocated_ports : option (gmap string Z) }.

(** [{"allocated_ports": {}}] *)
Definition fresh_registry : Registry := {| allocated_ports := Some ∅ |}.

(** [registry.get("allocated_ports", {})] *)
Definition get_allocated_ports (registry : Registry) : gmap string Z :=
  default ∅ (allocated_ports registry).

(** [registry["allocated_ports"] = allocated_ports] *)
Definition set_allocated_ports (registry : Registry) (m : gmap string Z) : Registry :=
  {| allocated_ports := Some m |}.

(** Outcome of [socket.socket(...)], [settimeout], [connect_ex] taken together:
    [connect_ex] hands back an error indicator, or something in the [try]
    block raises. *)
Inductive ConnectResult : Type :=
  | Returned (code : Z)
  | Raised.

(** Outcome of [open(path, 'w')] followed by [json.dump]. *)
Inductive WriteResult : Type :=
  | Written        (* the document reached the file *)
  | OpenDenied     (* [open] raised: the file is as it was *)
  | Truncated.     (* [open] truncated the file and [json.dump] raised *)

(** The host: what the operating system answers to the n-th request. *)
Record Host : Type := {
  connect_ex : nat → Z → ConnectResult;
  read_fails : nat → bool;
  write_result : nat → WriteResult
}.

Inductive Event : Type :=
  | EvLoad
  | EvSave (registry : Registry) (r : WriteResult)
  | EvConnect (port : Z) (r : ConnectResult).

Record World : Type := {
  host : Host;
  now : nat;                 (* requests made to the host so far *)
  disk : File Registry;      (* content of port_registry.json *)
  trace : list Event         (* newest first *)
}.

Definition IO := State World.

Definition step (ev : Event) (d : File Registry) (w : World) : World :=
  {| host := host w; now := S (now w); disk := d; trace := ev :: trace w |}.

(** The ports recorded in the file, whatever its state. *)
Definition registered (d : File Registry) : gmap string Z :=
  match d with
  | Stored registry => get_allocated_ports registry
  | _ => ∅
  end.

Definition _initialize_registry : IO unit := λ w,
  match disk w with
  | Missing =>
      match write_result (host w) (now w) with
      | Written => (tt, step (EvSave fresh_registry Written) (Stored fresh_registry) w)
      | OpenDenied => (tt, step (EvSave fresh_registry OpenDenied) Missing w)
      | Truncated => (tt, step (EvSave fresh_registry Truncated) Garbled w)
      end
  | _ => (tt, w)
  end.

Definition _load_registry : IO Registry := λ w,
  match disk w with
  | Missing => (fresh_registry, step EvLoad (disk w) w)
  | Garbled => (fresh_registry, step EvLoad (disk w) w)
  | Stored registry =>
      if read_fails (host w) (now w)
      then (fresh_registry, step EvLoad (disk w) w)
      else (registry, step EvLoad (disk w) w)
  end.

Definition _save_registry (registry : Registry) : IO bool := λ w,
  match write_result (host w) (now w) with
  | Written => (true, step (EvSave registry Written) (Stored registry) w)
  | OpenDenied => (false, step (EvSave registry OpenDenied) (disk w) w)
  | Truncated => (false, step (EvSave registry Truncated) Garbled w)
  end.

Definition _is_port_available (port : Z) : IO bool := λ w,
  let r := connect_ex (host w) (now w) port in
  let w' := step (EvConnect port r) (disk w) w in
  match r with
  | Returned result => (negb (result =? 0), w')
  | Raised => (false, w')
  end.

(** The early-exit loop [for port in test_ports]. *)
Fixpoint all_available (test_ports : list Z) : IO bool :=
  match test_ports with
  | [] => ret true
  | port :: rest =>
      ok <~ _is_port_available port ;;
      if negb ok then ret false else all_available rest
  end.

Definition _check_port_range_available (port_base : Z) : IO bool :=
  all_available [port_base + 10; port_base + 20; port_base + 30; port_base + 40].

(** [for port in allocated_ports.values(): highest_port = max(highest_port, int(port))] *)
Definition highest_port (allocated : gmap string Z) : Z :=
  foldl (λ highest port, Z.max highest port) MCP_BASE_PORT (map_to_list allocated).*2.

(** The loop [for i in range(10)] over the remaining [indices];
    [None] when it runs to its end. *)
Fixpoint probe_candidates (next_base : Z) (indices : list nat) : IO (option Z) :=
  match indices with
  | [] => ret None
  | i :: rest =>
      let port_base := next_base + Z.of_nat i * MCP_PORT_RANGE in
      ok <~ _check_port_range_available port_base ;;
      if ok then ret (Some port_base) else probe_candidates next_base rest
  end.

Definition _find_next_port_base : IO Z :=
  registry <~ _load_registry ;;
  let allocated := get_allocated_ports registry in
  let next_base := highest_port allocated + MCP_PORT_RANGE in
  found <~ probe_candidates next_base (seq 0 10) ;;
  match found with
  | Some port_base => ret port_base
  | None => ret next_base
  end.

Definition allocate_port_range (instance_name : string) : IO Z :=
  registry <~ _load_registry ;;
  let allocated := get_allocated_ports registry in
  match allocated !! instance_name with
  | Some port => ret port
  | None =>
      base_port <~ _find_next_port_base ;;
      _save_registry (set_allocated_ports registry (<[instance_name := base_port]> allocated)) ;;;
      ret base_port
  end.

Definition get_port_base (instance_name : string) : IO Z :=
  registry <~ _load_registry ;;
  let allocated := get_allocated_ports registry in
  match allocated !! instance_name with
  | Some port => ret port
  | None => allocate_port_range instance_name
  end.

Definition offsets : list (string * Z) :=
  [ ("filesystem", 10); ("sequential-thinking", 20); ("memory", 30);
    ("desktop-commander", 40); ("repl", 50);
    ("@executeautomation-playwright-mcp-server", 60) ]%string.

(** [offsets.get(tool_name, 90)] *)
Definition offset_of (tool_name : string) : Z :=
  match list_find (λ kv, kv.1 = tool_name) offsets with
  | Some (_, kv) => kv.2
  | None => 90
  end.

Definition get_tool_port (instance_name tool_name : string) : IO Z :=
  base_port <~ get_port_base instance_name ;;
  ret (base_port + offset_of tool_name).

Definition release_port_range (instance_name : string) : IO bool :=
  registry <~ _load_registry ;;
  let allocated := get_allocated_ports registry in
  match allocated !! instance_name with
  | Some _ =>
      _save_registry (set_allocated_ports registry (delete instance_name allocated)) ;;;
      ret true
  | None => ret false
  end.

(** A run of [allocate_port_range], one call per name, in order. *)
Fixpoint allocate_each (names : list string) : IO (list Z) :=
  match names with
  | [] => ret []
  | name :: rest =>
      port <~ allocate_port_range name ;;
      ports <~ allocate_each rest ;;
      ret (port :: ports)
  end.

(** *** Conditions on the world *)

(** Normal I/O conditions: every read and every write of the registry
    file succeeds. *)
Definition normal_io (h : Host) : Prop :=
  ∀ t, read_fails h t = false ∧ write_result h t = Written.

(** The data-model invariant of the registry: distinct instances hold base
    ports at least one range apart. *)
Definition spaced (m : gmap string Z) : Prop :=
  ∀ k1 k2 v1 v2, k1 ≠ k2 → m !! k1 = Some v1 → m !! k2 = Some v2 →
    MCP_PORT_RANGE ≤ Z.abs (v1 - v2).

(** [top] is the maximum of [MCP_BASE_PORT] and the bases in [m]. *)
Definition is_max_base (m : gmap string Z) (top : Z) : Prop :=
  MCP_BASE_PORT ≤ top ∧
  (∀ k v, m !! k = Some v → v ≤ top) ∧
  (top = MCP_BASE_PORT ∨ ∃ k, m !! k = Some top).

(** The ports of the range reserved at [base]. *)
Definition in_range (base p : Z) : Prop := base ≤ p < base + MCP_PORT_RANGE.

Definition ranges_disjoint (a b : Z) : Prop :=
  ∀ p, ¬ (in_range a p ∧ in_range b p).

(** Base ports handed out by a run of calls: any two of them, at different
    positions, are a full range apart. *)
Definition pairwise_apart (ports : list Z) : Prop :=
  ∀ i j a b, i ≠ j → ports !! i = Some a → ports !! j = Some b →
    MCP_PORT_RANGE ≤ Z.abs (a - b) ∧ ranges_disjoint a b.

(** The candidate at [port_base] passes (fails) [_check_port_range_available]
    whenever this host is asked. *)
Definition range_free (h : Host) (port_base : Z) : Prop :=
  ∀ w, host w = h → (_check_port_range_available port_base w).1 = true.

Definition range_busy (h : Host) (port_base : Z) : Prop :=
  ∀ w, host w = h → (_check_port_range_available port_base w).1 = false.

(** The registry as a call of [_load_registry] in world [w] reads it. *)
Definition loaded (w : World) : gmap string Z :=
  get_allocated_ports (_load_registry w).1.

(** *** Hosts and worlds to run the methods on *)

(** Nothing listens anywhere: every connect is refused (ECONNREFUSED). *)
Definition quiet_host : Host :=
  {| connect_ex := λ _ _, Returned 111;
     read_fails := λ _, false;
     write_result := λ _, Written |}.

(** Something accepts connections on every port. *)
Definition crowded_host : Host :=
  {| connect_ex := λ _ _, Returned 0;
     read_fails := λ _, false;
     write_result := λ _, Written |}.

(** No socket can be had: the probe raises. *)
Definition starved_host : Host :=
  {| connect_ex := λ _ _, Raised;
     read_fails := λ _, false;
     write_result := λ _, Written |}.

(** The world right after [__init__] created an empty registry. *)
Definition boot (h : Host) : World :=
  {| host := h; now := 0; disk := Stored fresh_registry; trace := [] |}.

(** What [_is_port_available] answers for [port] when the host is asked
    at time [t]. *)
Definition probe_ok (h : Host) (t : nat) (port : Z) : bool :=
  match connect_ex h t port with
  | Returned result => negb (result =? 0)
  | Raised => false
  end.

(** The tool names of the offset table. *)
Definition known_tools : list string := offsets.*1.

(** Something listens on every port below 9200 and nowhere else. *)
Definition half_busy_host : Host :=
  {| connect_ex := λ _ port, if port <? 9200 then Returned 0 else Returned 111;
     read_fails := λ _, false;
     write_result := λ _, Written |}.

(** A host whose registry file cannot be opened for writing. *)
Definition readonly_host : Host :=
  {| connect_ex := λ _ _, Returned 111;
     read_fails := λ _, false;
     write_result := λ _, OpenDenied |}.

(** A world whose registry holds "alpha" at 9100 and "beta" at 9200. *)
Definition two_instances (h : Host) : World :=
  {| host := h; now := 0;
     disk := Stored {| allocated_ports :=
                         Some (<["alpha"%string := 9100]> (<["beta"%string := 9200]> ∅)) |};
     trace := [] |}.

End PortManager.

(** ** Python dictionaries

    A [dict] with string keys is the list of its items in insertion order,
    each key once. Assigning to a key that is there keeps its place,
    assigning to a new key puts it last, [del] takes the item out. *)

Module PyDict.

Section raw.
Context {A : Type}.
Implicit Types (l : list (string * A)) (k : string) (v : A).

Definition distinct_keys l : Prop := NoDup l.*1.

#[global] Instance distinct_keys_dec l : Decision (distinct_keys l).
Proof. unfold distinct_keys. apply _. Defined.

Fixpoint raw_lookup k l : option A :=
  match l with
  | [] => None
  | (k', v) :: rest => if decide (k' = k) then Some v else raw_lookup k rest
  end.

Fixpoint raw_insert k v l : list (string * A) :=
  match l with
  | [] => [(k, v)]
  | (k', v') :: rest =>
      if decide (k' = k) then (k, v) :: rest else (k', v') :: raw_insert k v rest
  end.

Fixpoint raw_delete k l : list (string * A) :=
  match l with
  | [] => []
  | (k', v') :: rest =>
      if decide (k' = k) then rest else (k', v') :: raw_delete k rest
  end.

Fixpoint raw_alter (f : A → A) k l : list (string * A) :=
  match l with
  | [] => []
  | (k', v') :: rest =>
      if decide (k' = k) then (k', f v') :: rest else (k', v') :: raw_alter f k rest
  end.

Lemma raw_insert_keys k v l :
  (raw_insert k v l).*1 = if decide (k ∈ l.*1) then l.*1 else l.*1 ++ [k].
Proof.
  induction l as [|[k' v'] l IH]; [done|].
  cbn [raw_insert]. rewrite !fmap_cons. cbn [fst].
  destruct (decide (k' = k)) as [->|Hne].
  - rewrite decide_True by left. done.
  - rewrite fmap_cons, IH. cbn [fst].
    destruct (decide (k ∈ l.*1)) as [Hin|Hnin].
    + rewrite decide_True by by right. done.
    + rewrite decide_False; [done|]. intros [?|?]%elem_of_cons; congruence.
Qed.

Lemma raw_alter_keys f k l : (raw_alter f k l).*1 = l.*1.
Proof.
  induction l as [|[k' v'] l IH]; [done|].
  cbn [raw_alter]. destruct (decide (k' = k)); [done|].
  by rewrite !fmap_cons, IH.
Qed.

Lemma raw_delete_keys k l : l.*1 = (raw_delete k l).*1 ∨
  ∃ pre post, l.*1 = pre ++ k :: post ∧ (raw_delete k l).*1 = pre ++ post.
Proof.
  induction l as [|[k' v'] l IH]; [by left|].
  cbn [raw_delete]. destruct (decide (k' = k)) as [->|Hne].
  - right. by exists [], l.*1.
  - rewrite !fmap_cons. cbn [fst]. destruct IH as [<-|(pre & post & -> & ->)]; [by left|].
    right. by exists (k' :: pre), post.
Qed.

Lemma raw_insert_distinct k v l : distinct_keys l → distinct_keys (raw_insert k v l).
Proof.
  unfold distinct_keys. intros Hnd. rewrite raw_insert_keys.
  destruct (decide (k ∈ l.*1)); [done|].
  apply NoDup_app. split_and!; [done| |apply NoDup_singleton].
  intros x Hx ->%list_elem_of_singleton. done.
Qed.

Lemma raw_alter_distinct f k l : distinct_keys l → distinct_keys (raw_alter f k l).
Proof. unfold distinct_keys. by rewrite raw_alter_keys. Qed.

Lemma raw_delete_distinct k l : distinct_keys l → distinct_keys (raw_delete k l).
Proof.
  unfold distinct_keys. destruct (raw_delete_keys k l) as [<-|(pre & post & -> & ->)]; [done|].
  rewrite !NoDup_app. intros (Hpre & Hdis & Hpost%NoDup_cons). split_and!; [done| |tauto].
  intros x Hx Hpost'. apply (Hdis x Hx). by right.
Qed.

End raw.

(** The dictionary itself. *)
Definition dict (A : Type) : Type := dsig (@distinct_keys A).

Section ops.
Context {A : Type}.

(** [d.items()] *)
Definition items (d : dict A) : list (string * A) := proj1_sig d.

(** [list(d.keys())] *)
Definition keys (d : dict A) : list string := (items d).*1.

#[global] Instance dict_empty : Empty (dict A) := dexist [] (NoDup_nil_2 : distinct_keys []).

(** [d.get(k)]: [None] when [k not in d] *)
#[global] Instance dict_lookup : Lookup string A (dict A) := λ k d, raw_lookup k (items d).

(** [d[k] = v] *)
#[global] Instance dict_insert : Insert string A (dict A) := λ k v d,
  dexist (raw_insert k v (items d)) (raw_insert_distinct k v _ (proj2_dsig d)).

(** [del d[k]] for a key that is there; nothing for one that is not *)
#[global] Instance dict_delete : Delete string (dict A) := λ k d,
  dexist (raw_delete k (items d)) (raw_delete_distinct k _ (proj2_dsig d)).

(** [d[k] = f(d[k])] for a key that is there; nothing for one that is not *)
#[global] Instance dict_alter : Alter string A (dict A) := λ f k d,
  dexist (raw_alter f k (items d)) (raw_alter_distinct f k _ (proj2_dsig d)).

End ops.

#[global] Arguments dict_empty : simpl never.
#[global] Arguments dict_lookup : simpl never.
#[global] Arguments dict_insert : simpl never.
#[global] Arguments dict_delete : simpl never.
#[global] Arguments dict_alter : simpl never.

End PyDict.

(** ** server_manager.py (with the configuration reader of registry.py) *)

Module ServerManager.
Import PyDict.

Local Open Scope string_scope.

(** *** Python strings *)

(** A [str] is held as its UTF-8 bytes. *)
Definition utf8 (code_units : list nat) : string :=
  foldr (λ n s, String (ascii_of_nat n) s) EmptyString code_units.

(** The characters of [str.isspace()], which are those [str.strip()]
    removes: U+0009 to U+000D, U+001C to U+0020, U+0085, U+00A0, U+1680,
    U+2000 to U+200A, U+2028, U+2029, U+202F, U+205F and U+3000. *)
Definition whitespace : list string :=
  utf8 <$> (((λ b, [b]) <$> [9; 10; 11; 12; 13; 28; 29; 30; 31; 32]%nat)
            ++ [[194; 133]; [194; 160]; [225; 154; 128]]%nat
            ++ ((λ b, [226; 128; b]%nat) <$> seq 128 11)
            ++ [[226; 128; 168]; [226; 128; 169]; [226; 128; 175];
                [226; 129; 159]; [227; 128; 128]]%nat)%list.

(** [s] without the prefix [p], when it starts with [p]. *)
Fixpoint without_prefix (p s : string) : option string :=
  match p, s with
  | EmptyString, _ => Some s
  | String a p', String b s' => if decide (a = b) then without_prefix p' s' else None
  | String _ _, EmptyString => None
  end.

(** [s] without its first character, when that is one of [chars]. *)
Fixpoint without_first (chars : list string) (s : string) : option string :=
  match chars with
  | [] => None
  | c :: rest =>
      match without_prefix c s with
      | Some s' => Some s'
      | None => without_first rest s
      end
  end.

(** Dropping leading characters of [chars]; each turn drops a byte at
    least, so as many turns as [s] has bytes are enough. *)
Fixpoint drop_leading (fuel : nat) (chars : list string) (s : string) : string :=
  match fuel with
  | O => s
  | S fuel' =>
      match without_first chars s with
      | Some s' => drop_leading fuel' chars s'
      | None => s
      end
  end.

Definition lstrip (s : string) : string := drop_leading (String.length s) whitespace s.

Definition rstrip (s : string) : string :=
  String.rev (drop_leading (String.length s) (String.rev <$> whitespace) (String.rev s)).

(** [s.strip()] *)
Definition strip (s : string) : string := rstrip (lstrip s).

(** Truth value of a string: [not line] holds of the empty string. *)
Definition nonempty (s : string) : bool :=
  match s with EmptyString => false | _ => true end.

(** [l[-n:]] for [n > 0] *)
Definition last_n {A} (n : nat) (l : list A) : list A := drop (length l - n) l.

(** [d[key]] / [key in d] on a dictionary kept in insertion order. *)
Definition assoc {A} (key : string) (d : list (string * A)) : option A :=
  match list_find (λ kv, kv.1 = key) d with
  | Some (_, kv) => Some kv.2
  | None => None
  end.

(** *** Configuration documents (registry.py) *)

(** One entry of ["mcpServers"]; a field is [None] when its key is absent. *)
Record ServerConfig : Type := {
  command : option string;
  args : option (list string);
  env : option (list (string * string));
  autoStart : option bool
}.

(** The instance's claude_desktop_config.json: ["mcpServers"] (when
    present) in document order, and whether the object has other keys. *)
Record Config : Type := {
  mcpServers : option (list (string * ServerConfig));
  other_keys : bool
}.

(** [not config] for a loaded document: the object has no key at all. *)
Definition is_empty_config (config : Config) : bool :=
  match mcpServers config with
  | None => negb (other_keys config)
  | Some _ => false
  end.

(** *** Subprocesses *)

(** What the subprocess does when it is asked to stop. *)
Inductive Reaction : Type :=
  | ExitsOnTerminate (rc : Z)   (* gone within the 3 seconds after [terminate()] *)
  | ExitsOnKill                 (* [wait(3)] times out; gone within 1 second of [kill()] *)
  | SurvivesKill                (* the second [wait] times out as well *)
  | SignalRaises.               (* [terminate()] itself raises *)

(** How a call fails to return. *)
Inductive Failure : Type :=
  | Raised                      (* an exception leaves the call *)
  | Blocked.                    (* the call waits for ever *)

(** How a call ends. *)
Inductive Call (A : Type) : Type :=
  | Returns (a : A)
  | Fails (e : Failure).

Arguments Returns {A} a.
Arguments Fails {A} e.

(** What the next look at the merged output stream finds. [select] asks
    the pipe, [readline()] the buffered reader on top of it, so what is
    written and what a look finds are two things: of lines that arrive
    together the first look returns one and the others stay in the reader,
    out of sight of [select] until the pipe holds something again. *)
Inductive Pending : Type :=
  | Ready (line : string)       (* [select] reports the stream readable and
                                   [readline()] returns [line]; [""] at the
                                   end of the stream *)
  | Held                        (* [select] reports nothing to read for now,
                                   whatever sits further down the stream *)
  | Broken (e : Failure).       (* the look does not return: [select] or
                                   [readline()] raises (bytes that are not
                                   text), or [readline()] waits for the end
                                   of a line that does not come *)

(** A [Popen] handle together with the state of the process behind it. *)
Record Proc : Type := {
  pid : Z;
  returncode : option Z;        (* what [poll()] answers; [None] while it runs *)
  stdout : list Pending;        (* the stream ahead, oldest first; nothing to
                                   read when it is empty *)
  reaction : Reaction
}.

Definition set_returncode (rc : option Z) (p : Proc) : Proc :=
  {| pid := pid p; returncode := rc; stdout := stdout p; reaction := reaction p |}.

Definition set_stdout (out : list Pending) (p : Proc) : Proc :=
  {| pid := pid p; returncode := returncode p; stdout := out; reaction := reaction p |}.

(** [process.poll() is None] *)
Definition alive (p : Proc) : bool :=
  match returncode p with None => true | Some _ => false end.

(** The collaborators of the manager: the configuration files read by
    [get_instance_mcp_config], the environment of the tool, [Popen] (its n-th
    call, [None] when it raises) and [int] on strings ([None] for
    ValueError). *)
Record Host : Type := {
  config_file : string → File Config;
  os_environ : gmap string string;
  popen : nat → list string → gmap string string → option Proc;
  py_int : string → option Z
}.

(** registry.py, [get_instance_mcp_config] *)
Definition get_instance_mcp_config (h : Host) (instance_name : string) : option Config :=
  match config_file h instance_name with
  | Stored config => Some config
  | _ => None
  end.

(** *** The manager *)

Inductive Signal : Type :=
  | server_started (server_name : string)
  | server_stopped (server_name : string)
  | server_output (server_name line : string).

Record Manager : Type := {
  servers : dict (dict Proc);
  server_logs : dict (dict (list string));
  emitted : list Signal;        (* newest first *)
  launches : nat                (* calls of [Popen] so far *)
}.

Definition SM := State Manager.

Definition set_servers (f : dict (dict Proc) → dict (dict Proc))
    (st : Manager) : Manager :=
  {| servers := f (servers st); server_logs := server_logs st;
     emitted := emitted st; launches := launches st |}.

Definition set_server_logs
    (f : dict (dict (list string)) → dict (dict (list string)))
    (st : Manager) : Manager :=
  {| servers := servers st; server_logs := f (server_logs st);
     emitted := emitted st; launches := launches st |}.

Definition emit (sig : Signal) (st : Manager) : Manager :=
  {| servers := servers st; server_logs := server_logs st;
     emitted := sig :: emitted st; launches := launches st |}.

Definition count_launch (st : Manager) : Manager :=
  {| servers := servers st; server_logs := server_logs st;
     emitted := emitted st; launches := S (launches st) |}.

(** [self.servers[instance_name][server_name]] when both keys are there. *)
Definition tracked (instance_name server_name : string) (st : Manager) : option Proc :=
  servers st !! instance_name ≫= (.!! server_name).

(** [d[instance_name][server_name] = x]; KeyError ([None]) when the outer
    key is missing. *)
Definition set_inner {A} (instance_name server_name : string) (x : A)
    (d : dict (dict A)) : option (dict (dict A)) :=
  inner ← d !! instance_name;
  Some (<[instance_name := <[server_name := x]> inner]> d).

Definition get_port_from_args (h : Host) (args : list string) : Z :=
  match list_find (λ a, a = "--port") args with
  | Some (i, _) =>
      match args !! S i with
      | Some s => default 0%Z (py_int h s)
      | None => 0%Z
      end
  | None => 0%Z
  end.

(** The environment handed to [Popen]. *)
Definition child_env (h : Host) (instance_name : string) (server_config : ServerConfig)
    (port : Z) : gmap string string :=
  let env0 := foldl (λ e kv, <[kv.1 := kv.2]> e) (os_environ h)
                    (default [] (env server_config)) in
  <["CLAUDE_INSTANCE" := instance_name]>
    (<["MCP_SERVER_PORT" := pretty port]> (<["MCP_PORT" := pretty port]> env0)).

Definition start_server (h : Host) (instance_name server_name : string) : SM bool := λ st,
  let st :=
    match servers st !! instance_name with
    | Some _ => st
    | None => set_server_logs (insert instance_name ∅) (set_servers (insert instance_name ∅) st)
    end in
  let running :=
    match tracked instance_name server_name st with
    | Some process => alive process
    | None => false
    end in
  if running then (true, st) else
  match get_instance_mcp_config h instance_name with
  | None => (false, st)
  | Some config =>
      if is_empty_config config then (false, st) else
      match mcpServers config with
      | None => (false, st)
      | Some mcp =>
          match assoc server_name mcp with
          | None => (false, st)
          | Some server_config =>
              let command := default "npx" (command server_config) in
              let args := default [] (args server_config) in
              let port := get_port_from_args h args in
              let env := child_env h instance_name server_config port in
              let full_command := command :: args in
              match popen h (launches st) full_command env with
              | None => (false, count_launch st)
              | Some process =>
                  let st := count_launch st in
                  match set_inner instance_name server_name process (servers st) with
                  | None => (false, st)
                  | Some servers' =>
                      let st := set_servers (λ _, servers') st in
                      match set_inner instance_name server_name [] (server_logs st) with
                      | None => (false, st)
                      | Some logs' =>
                          (true, emit (server_started server_name)
                                   (set_server_logs (λ _, logs') st))
                      end
                  end
              end
          end
      end
  end.

Definition stop_server (instance_name server_name : string) : SM bool := λ st,
  match tracked instance_name server_name st with
  | None => (false, st)
  | Some process =>
      if alive process then
        match reaction process with
        | SignalRaises => (false, st)
        | ExitsOnTerminate rc =>
            (true, emit (server_stopped server_name)
                     (set_servers (alter (insert server_name (set_returncode (Some rc) process))
                                         instance_name) st))
        | ExitsOnKill =>
            (true, emit (server_stopped server_name)
                     (set_servers (alter (insert server_name (set_returncode (Some (-9)%Z) process))
                                         instance_name) st))
        | SurvivesKill => (false, st)
        end
      else
        (true, set_servers (alter (delete server_name) instance_name) st)
  end.

(** The loop of [start_all_servers]; [success and self.start_server(...)]
    evaluates its right operand only when [success] is true. *)
Fixpoint start_all_loop (h : Host) (instance_name : string)
    (items : list (string * ServerConfig)) (success : bool) : SM bool :=
  match items with
  | [] => ret success
  | (server_name, server_config) :: rest =>
      if default false (autoStart server_config) then
        if success then
          started <~ start_server h instance_name server_name ;;
          start_all_loop h instance_name rest started
        else start_all_loop h instance_name rest false
      else start_all_loop h instance_name rest success
  end.

Definition start_all_servers (h : Host) (instance_name : string) : SM bool :=
  match get_instance_mcp_config h instance_name with
  | None => ret false
  | Some config =>
      if is_empty_config config then ret false else
      match mcpServers config with
      | None => ret false
      | Some mcp => start_all_loop h instance_name mcp true
      end
  end.

Fixpoint stop_all_loop (instance_name : string) (names : list string) (success : bool) : SM bool :=
  match names with
  | [] => ret success
  | server_name :: rest =>
      if success then
        stopped <~ stop_server instance_name server_name ;;
        stop_all_loop instance_name rest stopped
      else stop_all_loop instance_name rest false
  end.

Definition stop_all_servers (instance_name : string) : SM bool := λ st,
  match servers st !! instance_name with
  | None => (true, st)
  | Some inner => stop_all_loop instance_name (keys inner) true st
  end.

Definition is_server_running (instance_name server_name : string) (st : Manager) : bool :=
  match tracked instance_name server_name st with
  | Some process => alive process
  | None => false
  end.

Definition get_running_servers (instance_name : string) (st : Manager) : list string :=
  match servers st !! instance_name with
  | None => []
  | Some inner => (filter (λ kv, alive kv.2 = true) (items inner)).*1
  end.

Definition get_server_log (instance_name server_name : string) (st : Manager) : list string :=
  default [] (server_logs st !! instance_name ≫= (.!! server_name)).

(** One [select] and, when it reports the stream readable, one
    [readline()]. The answer is the stripped line, or [None]. *)
Definition _read_line_nonblock (process : Proc) : Call (option string) * Proc :=
  match stdout process with
  | [] => (Returns None, process)
  | Held :: rest => (Returns None, set_stdout rest process)
  | Ready line :: rest =>
      if nonempty line then (Returns (Some (strip line)), set_stdout rest process)
      else (Returns None, set_stdout rest process)
  | Broken e :: rest => (Fails e, set_stdout rest process)
  end.

(** The three statements that put [line] into the log of the pair. *)
Definition append_log (instance_name server_name line : string)
    (logs : dict (dict (list string))) : dict (dict (list string)) :=
  let logs := match logs !! instance_name with
              | Some _ => logs
              | None => <[instance_name := ∅]> logs
              end in
  let inner := default ∅ (logs !! instance_name) in
  let inner := match inner !! server_name with
               | Some _ => inner
               | None => <[server_name := []]> inner
               end in
  let log := (default [] (inner !! server_name) ++ [line])%list in
  let log := if (1000 <? length log)%nat then last_n 1000 log else log in
  <[instance_name := <[server_name := log]> inner]> logs.

(** The [while True] loop, unrolled at most [fuel] times; the process is
    handed back with what it still holds. Nothing catches what
    [readline()] raises. *)
Fixpoint read_loop (fuel : nat) (instance_name server_name : string) (process : Proc)
    (st : Manager) : Call unit * (Proc * Manager) :=
  match fuel with
  | O => (Returns (), (process, st))
  | S fuel' =>
      match _read_line_nonblock process with
      | (Returns (Some line), process') =>
          if nonempty line then
            read_loop fuel' instance_name server_name process'
              (emit (server_output server_name line)
                 (set_server_logs (append_log instance_name server_name line) st))
          else (Returns (), (process', st))
      | (Returns None, process') => (Returns (), (process', st))
      | (Fails e, process') => (Fails e, (process', st))
      end
  end.

(** Every turn of the loop moves one step down the stream or leaves, so one
    turn more than the stream is long reaches the [break]. *)
Definition _read_process_output (instance_name server_name : string) (process : Proc)
    (st : Manager) : Call unit * (Proc * Manager) :=
  read_loop (S (length (stdout process))) instance_name server_name process st.

(** The inner loop of [update_server_logs] over the items of one instance;
    reading changes the process that the table holds. *)
Fixpoint update_instance_logs (instance_name : string) (instance_servers : list (string * Proc))
    : SM (Call unit) := λ st,
  match instance_servers with
  | [] => (Returns (), st)
  | (server_name, process) :: rest =>
      if alive process then
        let '(r, (process', st)) :=
          _read_process_output instance_name server_name process st in
        let st := set_servers (alter (insert server_name process') instance_name) st in
        match r with
        | Returns _ => update_instance_logs instance_name rest st
        | Fails e => (Fails e, st)
        end
      else update_instance_logs instance_name rest st
  end.

(** The outer loop, over the instances. *)
Fixpoint update_logs_loop (all_servers : list (string * dict Proc)) : SM (Call unit) := λ st,
  match all_servers with
  | [] => (Returns (), st)
  | (instance_name, instance_servers) :: rest =>
      match update_instance_logs instance_name (items instance_servers) st with
      | (Returns _, st) => update_logs_loop rest st
      | (Fails e, st) => (Fails e, st)
      end
  end.

Definition update_server_logs : SM (Call unit) := λ st,
  update_logs_loop (items (servers st)) st.

(** The log of a pair as the table holds it ([None]: a key is missing). *)
Definition log_at (instance_name server_name : string) (st : Manager) : option (list string) :=
  server_logs st !! instance_name ≫= (.!! server_name).

(** What one pass of [_read_process_output] over the waiting lines makes
    of a single log. *)
Fixpoint drain_log (pending : list Pending) (log : option (list string)) : option (list string) :=
  match pending with
  | Ready line :: rest =>
      if nonempty line && nonempty (strip line) then
        let log' := (default [] log ++ [strip line])%list in
        drain_log rest (Some (if (1000 <? length log')%nat then last_n 1000 log' else log'))
      else log
  | _ => log
  end.

(** The instance has no configuration entry for the server: the document
    is missing or unreadable, has no ["mcpServers"], or has no such key in
    it. *)
Definition no_config_entry (h : Host) (instance_name server_name : string) : Prop :=
  match get_instance_mcp_config h instance_name with
  | None => True
  | Some config =>
      match mcpServers config with
      | None => True
      | Some mcp => assoc server_name mcp = None
      end
  end.

(** *** Hosts and managers to run the methods on *)

Definition digit_of (c : ascii) : option Z :=
  let n := nat_of_ascii c in
  if (48 <=? n)%nat && (n <=? 57)%nat then Some (Z.of_nat (n - 48)) else None.

Fixpoint parse_digits (acc : Z) (s : string) : option Z :=
  match s with
  | EmptyString => Some acc
  | String c s' => d ← digit_of c; parse_digits (10 * acc + d)%Z s'
  end.

(** [int] on strings of plain decimal digits, which is all the hosts below
    are asked to convert. *)
Definition int_of_digits (s : string) : option Z :=
  match s with
  | EmptyString => None
  | _ => parse_digits 0 s
  end.

Definition memory_config : ServerConfig :=
  {| command := Some "npx";
     args := Some ["-y"; "@modelcontextprotocol/server-memory"; "--port"; "9130"];
     env := None;
     autoStart := Some true |}.

(** An auto-start entry whose executable does not exist. *)
Definition broken_config : ServerConfig :=
  {| command := Some "no-such-binary";
     args := Some [];
     env := None;
     autoStart := Some true |}.

(** [Popen] on this machine: "no-such-binary" cannot be launched, anything
    else starts a process that is running and leaves on [terminate()]. *)
Definition demo_popen (n : nat) (full_command : list string) (env : gmap string string)
    : option Proc :=
  match full_command with
  | cmd :: _ =>
      if decide (cmd = "no-such-binary") then None
      else Some {| pid := 4000 + Z.of_nat n; returncode := None; stdout := [];
                   reaction := ExitsOnTerminate 0 |}
  | [] => None
  end.

(** Instance "alpha" is configured with the memory server alone. *)
Definition demo_host : Host :=
  {| config_file := λ instance_name,
       if decide (instance_name = "alpha")
       then Stored {| mcpServers := Some [("memory", memory_config)]; other_keys := false |}
       else Missing;
     os_environ := ∅;
     popen := demo_popen;
     py_int := int_of_digits |}.

(** Instance "alpha" lists a server that cannot start before the memory
    server; both are marked auto-start. *)
Definition flaky_host : Host :=
  {| config_file := λ instance_name,
       if decide (instance_name = "alpha")
       then Stored {| mcpServers := Some [("broken", broken_config); ("memory", memory_config)];
                      other_keys := false |}
       else Missing;
     os_environ := ∅;
     popen := demo_popen;
     py_int := int_of_digits |}.

(** No instance has a configuration document. *)
Definition bare_host : Host :=
  {| config_file := λ _, Missing;
     os_environ := ∅;
     popen := demo_popen;
     py_int := int_of_digits |}.

(** Instance "alpha" is configured with the memory server, and the looks
    at the output of the process that [Popen] starts will find [out]. *)
Definition speaking_host (out : list Pending) : Host :=
  {| config_file := config_file demo_host;
     os_environ := ∅;
     popen := λ n _ _, Some {| pid := 4000 + Z.of_nat n; returncode := None; stdout := out;
                               reaction := ExitsOnTerminate 0 |};
     py_int := int_of_digits |}.

(** The manager as [__init__] leaves it. *)
Definition idle : Manager :=
  {| servers := ∅; server_logs := ∅; emitted := []; launches := 0 |}.

(** The manager once the memory server of "alpha" has been started. *)
Definition memory_started : Manager := (start_server demo_host "alpha" "memory" idle).2.

(** The line terminator, and a line of output as [readline()] returns it. *)
Definition newline : string := String (ascii_of_nat 10) EmptyString.
Definition written (content : string) : string := content +:+ newline.

(** Start, drain once, stop. *)
Definition start_drain_stop (h : Host) (instance_name server_name : string)
    (st : Manager) : Manager :=
  let st1 := (start_server h instance_name server_name st).2 in
  let st2 := (update_server_logs st1).2 in
  (stop_server instance_name server_name st2).2.

(** The state [start_server] works on once it has made sure the instance
    has its two tables. *)
Definition with_instance (i : string) (st : Manager) : Manager :=
  match servers st !! i with
  | Some _ => st
  | None => set_server_logs (insert i ∅) (set_servers (insert i ∅) st)
  end.

(** *** What one pass over a stream reads *)

(** The stripped lines one run of [_read_process_output] takes from the
    stream: it goes on until a look finds nothing to read, finds a line
    that is blank once stripped, or does not return. *)
Fixpoint lines_read (pending : list Pending) : list string :=
  match pending with
  | Ready line :: rest =>
      if nonempty line && nonempty (strip line) then strip line :: lines_read rest else []
  | _ => []
  end.

(** *** States the manager can be in *)

(** Every instance of the process table has a log table. *)
Definition tables_agree (st : Manager) : Prop :=
  ∀ instance_name, is_Some (servers st !! instance_name) →
                   is_Some (server_logs st !! instance_name).

(** From [st] to [st'] the process table keeps exactly its instances and
    the log table loses none. *)
Definition keeps_instances (st st' : Manager) : Prop :=
  (∀ k, is_Some (servers st' !! k) ↔ is_Some (servers st !! k)) ∧
  (∀ k, is_Some (server_logs st !! k) → is_Some (server_logs st' !! k)).

(** No log is longer than 1000 lines. *)
Definition logs_capped (st : Manager) : Prop :=
  ∀ instance_name server_name log,
    log_at instance_name server_name st = Some log → (length log ≤ 1000)%nat.

(** The states reached from a new manager by calls of its methods, on any
    host, interleaved with moves of the environment, which may change any
    tracked process (it writes, stalls, exits) but not the tables. *)
Inductive reachable : Manager → Prop :=
  | reach_init : reachable idle
  | reach_start_server h i s st :
      reachable st → reachable (start_server h i s st).2
  | reach_stop_server i s st :
      reachable st → reachable (stop_server i s st).2
  | reach_start_all_servers h i st :
      reachable st → reachable (start_all_servers h i st).2
  | reach_stop_all_servers i st :
      reachable st → reachable (stop_all_servers i st).2
  | reach_update_server_logs st :
      reachable st → reachable (update_server_logs st).2
  | reach_environment i s (f : Proc → Proc) st :
      reachable st → reachable (set_servers (alter (alter f s) i) st).

(** A process that is still running: two lines are found one after the
    other, then nothing for a while, then one more. *)
Definition chatty : Proc :=
  {| pid := 4001; returncode := None;
     stdout := [Ready (written " first"); Ready (written "second "); Held;
                Ready (written "third")];
     reaction := ExitsOnKill |}.

(** A process that is still running and does not leave when it is killed. *)
Definition stubborn : Proc :=
  {| pid := 4003; returncode := None; stdout := []; reaction := SurvivesKill |}.

(** A manager tracking the servers [inner] of instance "alpha". *)
Definition tracking (inner : dict Proc) : Manager :=
  {| servers := <["alpha" := inner]> ∅;
     server_logs := <["alpha" := ∅]> ∅;
     emitted := []; launches := length (keys inner) |}.

(** A process that has exited and left output unread. *)
Definition departed : Proc :=
  {| pid := 4002; returncode := Some 1%Z;
     stdout := [Ready (written "last words")];
     reaction := ExitsOnTerminate 0 |}.

(** A manager tracking [chatty] as "memory" and [departed] as "repl" of
    instance "alpha". *)
Definition busy_manager : Manager :=
  {| servers := <["alpha" := <["repl" := departed]> (<["memory" := chatty]> ∅)]> ∅;
     server_logs := <["alpha" := <["repl" := []]> (<["memory" := ["earlier"]]> ∅)]> ∅;
     emitted := []; launches := 2 |}.

End ServerManager.

(** ** template_store.py *)

Module TemplateStore.
Import ServerManager.

Local Open Scope string_scope.

(** A [ServerTemplate] object; [args] is a list, as every caller passes it. *)
Record ServerTemplate : Type := {
  name : string;
  server_name : string;
  command : string;
  args : list string;
  env : list (string * string);
  auto_start : bool
}.

(** [ServerTemplate.get_config] *)
Definition get_config (template : ServerTemplate) (port : Z) : ServerConfig :=
  let args0 := args template in
  let args1 :=
    if bool_decide ("--port" ∈ args0) && (0 <? port)%Z then
      match list_find (λ a, a = "--port") args0 with
      | Some (i, _) =>
          if (S i <? length args0)%nat then <[S i := pretty port]> args0 else args0
      | None => args0
      end
    else args0 in
  {| ServerManager.command := Some (command template);
     ServerManager.args := Some args1;
     ServerManager.env := Some (env template);
     ServerManager.autoStart := Some (auto_start template) |}.

(** One element of mcp_templates.json; a field is [None] when its key is
    absent. *)
Record TemplateData : Type := {
  d_name : option string;
  d_server_name : option string;
  d_command : option string;
  d_args : option (list string);
  d_env : option (list (string * string));
  d_auto_start : option bool
}.

(** [ServerTemplate.from_dict] *)
Definition from_dict (data : TemplateData) : ServerTemplate :=
  {| name := default "Unknown" (d_name data);
     server_name := default "" (d_server_name data);
     command := default "npx" (d_command data);
     args := default [] (d_args data);
     env := default [] (d_env data);
     auto_start := default false (d_auto_start data) |}.

(** The dictionary [_save_templates] writes for a template. *)
Definition to_dict (t : ServerTemplate) : TemplateData :=
  {| d_name := Some (name t);
     d_server_name := Some (server_name t);
     d_command := Some (command t);
     d_args := Some (args t);
     d_env := Some (env t);
     d_auto_start := Some (auto_start t) |}.

(** The store: the list in memory, the file, and the number of writes
    attempted so far; [wr] tells how the n-th write ends. *)
Record Store : Type := {
  templates : list ServerTemplate;
  templates_file : File (list TemplateData);
  writes : nat
}.

Definition _load_templates (st : Store) : list ServerTemplate :=
  match templates_file st with
  | Stored templates_data => from_dict <$> templates_data
  | _ => []
  end.

Definition _save_templates (wr : nat → PortManager.WriteResult) (st : Store) : bool * Store :=
  let templates_data := to_dict <$> templates st in
  match wr (writes st) with
  | PortManager.Written =>
      (true, {| templates := templates st; templates_file := Stored templates_data;
                writes := S (writes st) |})
  | PortManager.OpenDenied =>
      (false, {| templates := templates st; templates_file := templates_file st;
                 writes := S (writes st) |})
  | PortManager.Truncated =>
      (false, {| templates := templates st; templates_file := Garbled;
                 writes := S (writes st) |})
  end.

Definition get_all_templates (st : Store) : list ServerTemplate := templates st.

Definition get_template (wanted : string) (st : Store) : option ServerTemplate :=
  snd <$> list_find (λ t, name t = wanted) (templates st).

Definition get_template_by_server_name (wanted : string) (st : Store) : option ServerTemplate :=
  snd <$> list_find (λ t, server_name t = wanted) (templates st).

(** [self.templates.remove(existing)] for the template [get_template]
    found: the first one of that name goes. *)
Fixpoint remove_first (wanted : string) (l : list ServerTemplate) : list ServerTemplate :=
  match l with
  | [] => []
  | t :: rest => if decide (name t = wanted) then rest else t :: remove_first wanted rest
  end.

Definition set_templates (l : list ServerTemplate) (st : Store) : Store :=
  {| templates := l; templates_file := templates_file st; writes := writes st |}.

Definition add_template (wr : nat → PortManager.WriteResult) (template : ServerTemplate)
    (st : Store) : bool * Store :=
  let st1 :=
    match get_template (name template) st with
    | Some _ => set_templates (remove_first (name template) (templates st)) st
    | None => st
    end in
  let st2 := set_templates (templates st1 ++ [template]) st1 in
  (true, (_save_templates wr st2).2).

Definition remove_template (wr : nat → PortManager.WriteResult) (wanted : string)
    (st : Store) : bool * Store :=
  match get_template wanted st with
  | Some _ =>
      (true, (_save_templates wr
                (set_templates (remove_first wanted (templates st)) st)).2)
  | None => (false, st)
  end.

Definition built_in (name server_name package : string) (auto_start : bool) : ServerTemplate :=
  {| name := name; server_name := server_name; command := "npx";
     args := ["-y"; package; "--port"; "0"];
     env := [("HOME", "/home/claude")];
     auto_start := auto_start |}.

Definition built_ins : list ServerTemplate :=
  [ built_in "Filesystem" "filesystem" "@modelcontextprotocol/filesystem" true;
    built_in "Sequential Thinking" "sequential-thinking"
             "@modelcontextprotocol/sequential-thinking" true;
    built_in "Memory" "memory" "@modelcontextprotocol/memory" false;
    built_in "Desktop Commander" "desktop-commander"
             "@modelcontextprotocol/desktop-commander" true;
    built_in "REPL" "repl" "@modelcontextprotocol/repl" false;
    built_in "Playwright" "@executeautomation-playwright-mcp-server"
             "@executeautomation/playwright-mcp-server" false ].

Definition _add_builtins (wr : nat → PortManager.WriteResult) (st : Store) : Store :=
  foldl (λ st template, (add_template wr template st).2) st built_ins.

(** [TemplateStore.__init__] on the file found at start. *)
Definition init (wr : nat → PortManager.WriteResult) (file : File (list TemplateData)) : Store :=
  let st0 := {| templates := []; templates_file := file; writes := 0 |} in
  let st1 := set_templates (_load_templates st0) st0 in
  match templates st1 with
  | [] => _add_builtins wr st1
  | _ => st1
  end.

(** Template names are unique in the store. *)
Definition unique_names (st : Store) : Prop := NoDup (name <$> templates st).

(** Every write succeeds. *)
Definition writes_succeed (wr : nat → PortManager.WriteResult) : Prop :=
  ∀ n, wr n = PortManager.Written.

(** The list [add_template] leaves in memory. *)
Definition added (template : ServerTemplate) (l : list ServerTemplate) : list ServerTemplate :=
  match snd <$> list_find (λ t, name t = name template) l with
  | Some _ => (remove_first (name template) l ++ [template])%list
  | None => (l ++ [template])%list
  end.

(** A store that holds the six built-in templates. *)
Definition stocked : Store :=
  {| templates := built_ins; templates_file := Missing; writes := 0 |}.

End TemplateStore.

(** ** Writing configuration documents: [save_instance_mcp_config] of
    registry.py and [deploy_template] of server_manager.py *)

Module ConfigStore.
Import ServerManager.

Local Open Scope string_scope.







End ConfigStore.

(** * Properties of the port allocator *)

Module PortManagerProofs.
Import PortManager.

(** ** The scan for the highest allocated base *)

Lemma foldl_max_ge (l : list Z) (a : Z) :
  a ≤ foldl (λ highest port, Z.max highest port) a l.
Proof.
  revert a. induction l as [|x l IH]; intros a; simpl; [lia|].
  specialize (IH (Z.max a x)). lia.
Qed.

Lemma foldl_max_elem (l : list Z) (a x : Z) :
  x ∈ l → x ≤ foldl (λ highest port, Z.max highest port) a l.
Proof.
  revert a. induction l as [|y l IH]; intros a Hx; simpl.
  - by apply elem_of_nil in Hx.
  - apply elem_of_cons in Hx as [->|Hx]; [|by apply IH].
    pose proof (foldl_max_ge l (Z.max a y)). lia.
Qed.

Lemma highest_port_base (m : gmap string Z) : MCP_BASE_PORT ≤ highest_port m.
Proof. apply foldl_max_ge. Qed.

Lemma highest_port_lookup (m : gmap string Z) (k : string) (v : Z) :
  m !! k = Some v → v ≤ highest_port m.
Proof.
  intros Hk. apply foldl_max_elem.
  apply list_elem_of_fmap. exists (k, v). split; [done|].
  by apply elem_of_map_to_list.
Qed.

Lemma highest_port_empty : highest_port ∅ = MCP_BASE_PORT.
Proof. unfold highest_port. by rewrite map_to_list_empty. Qed.

Lemma foldl_max_attained (l : list Z) (a : Z) :
  foldl (λ highest port, Z.max highest port) a l = a ∨
  foldl (λ highest port, Z.max highest port) a l ∈ l.
Proof.
  revert a. induction l as [|x l IH]; intros a; simpl; [by left|].
  destruct (IH (Z.max a x)) as [Heq|Hin]; [|right; by right].
  rewrite Heq. destruct (Z.max_spec a x) as [[_ ->]|[_ ->]]; [right; left|by left].
Qed.

(** The scan computes the maximum of [MCP_BASE_PORT] and the existing bases. *)
Lemma highest_port_is_max (m : gmap string Z) : is_max_base m (highest_port m).
Proof.
  split; [apply highest_port_base|]. split; [apply highest_port_lookup|].
  destruct (foldl_max_attained (map_to_list m).*2 MCP_BASE_PORT) as [Heq|Hin];
    [by left|right].
  apply list_elem_of_fmap in Hin as ([k v] & Hv & Hkv). simpl in Hv.
  exists k. apply elem_of_map_to_list in Hkv. unfold highest_port. by rewrite Hv.
Qed.

(** ** How the methods move the world *)

Lemma load_spec (w : World) :
  ∃ registry, _load_registry w = (registry, step EvLoad (disk w) w) ∧
    (get_allocated_ports registry = registered (disk w) ∨
     get_allocated_ports registry = ∅) ∧
    (read_fails (host w) (now w) = false →
     get_allocated_ports registry = registered (disk w)).
Proof.
  unfold _load_registry. destruct (disk w) as [| |registry] eqn:Hd; simpl.
  - exists fresh_registry. auto.
  - exists fresh_registry. auto.
  - destruct (read_fails (host w) (now w)).
    + exists fresh_registry. split; [done|]. split; [by right|done].
    + exists registry. auto.
Qed.

Lemma is_port_available_world (port : Z) (w : World) :
  host (_is_port_available port w).2 = host w ∧
  disk (_is_port_available port w).2 = disk w.
Proof. unfold _is_port_available. by destruct (connect_ex _ _ _). Qed.

Lemma all_available_world (ports : list Z) (w : World) :
  host (all_available ports w).2 = host w ∧
  disk (all_available ports w).2 = disk w.
Proof.
  revert w. induction ports as [|p ports IH]; intros w; [done|].
  simpl. unfold bind.
  pose proof (is_port_available_world p w) as [Hh Hd].
  destruct (_is_port_available p w) as [ok w1]; simpl in *.
  destruct ok; simpl; [|done].
  destruct (IH w1) as [-> ->]. done.
Qed.

Lemma check_world (port_base : Z) (w : World) :
  host (_check_port_range_available port_base w).2 = host w ∧
  disk (_check_port_range_available port_base w).2 = disk w.
Proof. apply all_available_world. Qed.

(** The loop hands back one of its candidates or nothing, and leaves the
    registry file alone. *)
Lemma probe_candidates_spec (next_base : Z) (indices : list nat) (w : World) :
  host (probe_candidates next_base indices w).2 = host w ∧
  disk (probe_candidates next_base indices w).2 = disk w ∧
  ∀ port_base, (probe_candidates next_base indices w).1 = Some port_base →
    ∃ i, i ∈ indices ∧ port_base = next_base + Z.of_nat i * MCP_PORT_RANGE.
Proof.
  revert w. induction indices as [|i rest IH]; intros w.
  - simpl. split; [done|]. split; [done|]. intros ? [=].
  - simpl. unfold bind.
    pose proof (check_world (next_base + Z.of_nat i * MCP_PORT_RANGE) w) as [Hh Hd].
    destruct (_check_port_range_available _ w) as [ok w1]; simpl in *.
    destruct ok; simpl.
    + split; [done|]. split; [done|]. intros ? [= <-].
      exists i. split; [left|done].
    + destruct (IH w1) as (-> & -> & Hres).
      split; [done|]. split; [done|]. intros pb Hpb.
      destruct (Hres pb Hpb) as (j & Hj & ->). exists j. split; [by right|done].
Qed.

Lemma find_next_spec (w : World) :
  ∃ registry w1,
    _load_registry w = (registry, w1) ∧
    host (_find_next_port_base w).2 = host w ∧
    disk (_find_next_port_base w).2 = disk w ∧
    highest_port (get_allocated_ports registry) + MCP_PORT_RANGE
      ≤ (_find_next_port_base w).1.
Proof.
  destruct (load_spec w) as (registry & Hload & _).
  exists registry, (step EvLoad (disk w) w). split; [done|].
  unfold _find_next_port_base, bind. rewrite Hload.
  set (next_base := highest_port (get_allocated_ports registry) + MCP_PORT_RANGE).
  pose proof (probe_candidates_spec next_base (seq 0 10) (step EvLoad (disk w) w))
    as (Hh & Hd & Hres).
  destruct (probe_candidates next_base (seq 0 10) _) as [found w2]; simpl in *.
  destruct found as [port_base|]; simpl.
  - split; [done|]. split; [done|].
    destruct (Hres port_base eq_refl) as (i & _ & ->).
    unfold MCP_PORT_RANGE. lia.
  - split; [done|]. split; [done|]. lia.
Qed.

(** One allocation under normal I/O: the answer is what the registry holds
    for the name afterwards; a name that was there keeps the file as it was,
    a new name is added above every existing base. *)
Lemma allocate_spec (name : string) (w : World) :
  normal_io (host w) →
  let m := registered (disk w) in
  let r := allocate_port_range name w in
  host r.2 = host w ∧
  match m !! name with
  | Some port => r.1 = port ∧ disk r.2 = disk w ∧ trace r.2 = EvLoad :: trace w
  | None =>
      highest_port m + MCP_PORT_RANGE ≤ r.1 ∧
      registered (disk r.2) = <[name := r.1]> m
  end.
Proof.
  intros Hio m r. subst m r.
  destruct (load_spec w) as (registry & Hload & _ & Hreg).
  specialize (Hreg (proj1 (Hio _))).
  unfold allocate_port_range, bind. rewrite Hload, Hreg.
  destruct (registered (disk w) !! name) as [port|] eqn:Hname; simpl; [done|].
  set (w1 := step EvLoad (disk w) w).
  destruct (find_next_spec w1) as (registry' & w2 & Hload' & Hh & Hd & Hge).
  destruct (load_spec w1) as (registry'' & Hload'' & _ & Hreg'').
  rewrite Hload'' in Hload'. injection Hload' as <- <-.
  specialize (Hreg'' (proj1 (Hio _))). rewrite Hreg'' in Hge.
  destruct (_find_next_port_base w1) as [base_port w3]; simpl in *.
  unfold _save_registry. rewrite Hh. simpl.
  rewrite (proj2 (Hio _)). simpl. done.
Qed.

Lemma spaced_insert_above (m : gmap string Z) (name : string) (port : Z) :
  spaced m → highest_port m + MCP_PORT_RANGE ≤ port → spaced (<[name := port]> m).
Proof.
  intros Hm Hport k1 k2 v1 v2 Hne H1 H2.
  destruct (decide (k1 = name)) as [->|Hk1], (decide (k2 = name)) as [->|Hk2];
    simplify_map_eq.
  - pose proof (highest_port_lookup _ _ _ H2). lia.
  - pose proof (highest_port_lookup _ _ _ H1). lia.
  - exact (Hm k1 k2 v1 v2 Hne H1 H2).
Qed.

Lemma apart_disjoint (a b : Z) :
  MCP_PORT_RANGE ≤ Z.abs (a - b) → ranges_disjoint a b.
Proof. unfold ranges_disjoint, in_range. intros Hab p. lia. Qed.

(** A run of allocations under normal I/O keeps the registry spaced, only
    adds to it, and answers each call with what the registry then holds. *)
Lemma allocate_each_spec (names : list string) (w : World) :
  normal_io (host w) → spaced (registered (disk w)) →
  let r := allocate_each names w in
  spaced (registered (disk r.2)) ∧
  registered (disk w) ⊆ registered (disk r.2) ∧
  ∀ i name, names !! i = Some name →
    ∃ port, r.1 !! i = Some port ∧ registered (disk r.2) !! name = Some port.
Proof.
  revert w. induction names as [|name rest IH]; intros w Hio Hsp; simpl.
  - split; [done|]. split; [done|]. intros i name [=].
  - unfold bind.
    pose proof (allocate_spec name w Hio) as [Hh Hcase]. simpl in Hcase.
    destruct (allocate_port_range name w) as [port w1]; simpl in *.
    assert (spaced (registered (disk w1)) ∧
            registered (disk w) ⊆ registered (disk w1) ∧
            registered (disk w1) !! name = Some port) as (Hsp1 & Hsub1 & Hname1).
    { destruct (registered (disk w) !! name) as [port0|] eqn:Hname.
      - destruct Hcase as (-> & -> & _). done.
      - destruct Hcase as (Hge & ->).
        split; [by apply spaced_insert_above|].
        split; [by apply insert_subseteq|]. by rewrite lookup_insert_eq. }
    assert (normal_io (host w1)) as Hio1 by by rewrite Hh.
    specialize (IH w1 Hio1 Hsp1). simpl in IH.
    destruct (allocate_each rest w1) as [ports w2]; simpl in *.
    destruct IH as (Hsp2 & Hsub2 & Hpos).
    split; [done|]. split; [by etrans|].
    intros [|i] name' Hi; simpl in *.
    + injection Hi as <-. exists port. split; [done|].
      by eapply lookup_weaken.
    + by apply Hpos.
Qed.

(** One answer per call. *)
Lemma allocate_each_length (names : list string) (w : World) :
  length (allocate_each names w).1 = length names.
Proof.
  revert w. induction names as [|name rest IH]; intros w; [done|].
  simpl. unfold bind. destruct (allocate_port_range name w) as [port w1].
  specialize (IH w1). destruct (allocate_each rest w1). simpl in *. by rewrite IH.
Qed.

(** C1. For every run of [allocate_port_range] calls with pairwise distinct
    instance names and no release in between, under normal I/O and from a
    registry that satisfies its spacing invariant (the empty one does), the
    base ports returned are pairwise at least [MCP_PORT_RANGE] apart, so no
    two of the ranges share a port. *)
Theorem allocate_distinct_names_apart (names : list string) (w : World) :
  normal_io (host w) → NoDup names → spaced (registered (disk w)) →
  pairwise_apart (allocate_each names w).1.
Proof.
  intros Hio Hnd Hsp i j a b Hij Ha Hb.
  destruct (allocate_each_spec names w Hio Hsp) as (Hsp' & _ & Hpos).
  pose proof (allocate_each_length names w) as Hlen.
  assert (is_Some (names !! i)) as [ni Hni].
  { apply lookup_lt_is_Some. apply lookup_lt_Some in Ha. lia. }
  assert (is_Some (names !! j)) as [nj Hnj].
  { apply lookup_lt_is_Some. apply lookup_lt_Some in Hb. lia. }
  destruct (Hpos i ni Hni) as (a' & Ha' & Hra).
  destruct (Hpos j nj Hnj) as (b' & Hb' & Hrb).
  simplify_eq.
  assert (ni ≠ nj) as Hne.
  { intros ->. apply Hij. by eapply NoDup_lookup. }
  pose proof (Hsp' ni nj a b Hne Hra Hrb) as Hab.
  split; [done|]. by apply apart_disjoint.
Qed.

Lemma allocate_distinct_names_apart_witness :
  pairwise_apart (allocate_each ["alpha"; "beta"; "gamma"]%string (boot quiet_host)).1.
Proof.
  apply (allocate_distinct_names_apart ["alpha"; "beta"; "gamma"]%string (boot quiet_host)).
  - intros t. split; reflexivity.
  - apply (bool_decide_unpack _). vm_compute. exact I.
  - intros k1 k2 v1 v2 _ H1. exfalso. revert H1.
    change (registered (disk (boot quiet_host))) with (∅ : gmap string Z).
    by rewrite lookup_empty.
Defined.

(** C2. [allocate_port_range] is idempotent under normal I/O: a second
    call for the same name, with no release in between, returns the same
    base port, leaves the registry file as the first call left it and
    only reads it. *)
Theorem allocate_idempotent (name : string) (w : World) :
  normal_io (host w) →
  let r1 := allocate_port_range name w in
  let r2 := allocate_port_range name r1.2 in
  r2.1 = r1.1 ∧ disk r2.2 = disk r1.2 ∧ trace r2.2 = EvLoad :: trace r1.2.
Proof.
  intros Hio r1 r2. subst r1 r2.
  pose proof (allocate_spec name w Hio) as [Hh Hcase]. simpl in Hcase.
  destruct (allocate_port_range name w) as [p1 w1]; simpl in *.
  assert (registered (disk w1) !! name = Some p1) as Hname1.
  { destruct (registered (disk w) !! name) as [port0|] eqn:Hname.
    - destruct Hcase as (-> & -> & _). done.
    - destruct Hcase as (_ & ->). by rewrite lookup_insert_eq. }
  assert (normal_io (host w1)) as Hio1 by by rewrite Hh.
  pose proof (allocate_spec name w1 Hio1) as [_ Hcase1]. simpl in Hcase1.
  rewrite Hname1 in Hcase1. done.
Qed.

Lemma allocate_idempotent_witness :
  let r1 := allocate_port_range "alpha" (boot quiet_host) in
  let r2 := allocate_port_range "alpha" r1.2 in
  r2.1 = r1.1 ∧ disk r2.2 = disk r1.2 ∧ trace r2.2 = EvLoad :: trace r1.2.
Proof.
  apply (allocate_idempotent "alpha" (boot quiet_host)).
  intros t. split; reflexivity.
Defined.

(** ** The methods on small inputs *)

Example three_instances_in_a_row :
  (allocate_each ["alpha"; "beta"; "gamma"]%string (boot quiet_host)).1 = [9100; 9200; 9300].
Proof. vm_compute. reflexivity. Qed.

Example crowded_host_still_allocates :
  (allocate_each ["alpha"; "beta"]%string (boot crowded_host)).1 = [9100; 9200].
Proof. vm_compute. reflexivity. Qed.

Example tool_offsets :
  offset_of "filesystem" = 10 ∧ offset_of "desktop-commander" = 40 ∧
  offset_of "some-other-tool" = 90.
Proof. repeat split; reflexivity. Qed.

Example release_frees_the_name :
  let w1 := (allocate_port_range "alpha" (boot quiet_host)).2 in
  let r := release_port_range "alpha" w1 in
  r.1 = true ∧ registered (disk r.2) !! "alpha" = None ∧
  (allocate_port_range "alpha" r.2).1 = 9100.
Proof. repeat split; vm_compute; reflexivity. Qed.

(** A save that fails leaves the name unregistered: the next call allocates
    again. *)
Example failed_save_is_not_remembered :
  let h := {| connect_ex := λ _ _, Returned 111; read_fails := λ _, false;
              write_result := λ _, OpenDenied |} in
  let r1 := allocate_port_range "alpha" (boot h) in
  r1.1 = 9100 ∧ registered (disk r1.2) !! "alpha" = None ∧
  (allocate_port_range "beta" r1.2).1 = 9100.
Proof. repeat split; vm_compute; reflexivity. Qed.

(** ** The candidates that get probed *)

Lemma probe_candidates_first_free (next_base : Z) (i : nat) (rest : list nat) (w : World) :
  range_free (host w) (next_base + Z.of_nat i * MCP_PORT_RANGE) →
  (probe_candidates next_base (i :: rest) w).1
    = Some (next_base + Z.of_nat i * MCP_PORT_RANGE).
Proof.
  intros Hfree. simpl. unfold bind.
  specialize (Hfree w eq_refl).
  destruct (_check_port_range_available _ w) as [ok w1]; simpl in *. by subst ok.
Qed.

Lemma probe_candidates_all_busy (next_base : Z) (indices : list nat) (w : World) :
  (∀ i, i ∈ indices → range_busy (host w) (next_base + Z.of_nat i * MCP_PORT_RANGE)) →
  (probe_candidates next_base indices w).1 = None.
Proof.
  revert w. induction indices as [|i rest IH]; intros w Hbusy; [done|].
  simpl. unfold bind.
  pose proof (Hbusy i (list_elem_of_here _ _) w eq_refl) as Hi.
  pose proof (check_world (next_base + Z.of_nat i * MCP_PORT_RANGE) w) as [Hh _].
  destruct (_check_port_range_available _ w) as [ok w1]; simpl in *. subst ok.
  apply IH. intros j Hj. rewrite Hh. apply Hbusy. by right.
Qed.

Lemma loaded_reads_ok (w : World) :
  read_fails (host w) (now w) = false → loaded w = registered (disk w).
Proof.
  intros Hr. unfold loaded.
  destruct (load_spec w) as (registry & -> & _ & Hreg). by apply Hreg.
Qed.

Lemma loaded_empty (w : World) : registered (disk w) = ∅ → loaded w = ∅.
Proof.
  intros He. unfold loaded.
  destruct (load_spec w) as (registry & -> & [Hreg|Hreg] & _); simpl; congruence.
Qed.

Lemma find_next_unfold (w : World) :
  (_find_next_port_base w).1 =
    default (highest_port (loaded w) + MCP_PORT_RANGE)
      (probe_candidates (highest_port (loaded w) + MCP_PORT_RANGE) (seq 0 10)
         (step EvLoad (disk w) w)).1.
Proof.
  unfold loaded, _find_next_port_base, bind.
  destruct (load_spec w) as (registry & -> & _). cbn [fst].
  destruct (probe_candidates (highest_port (get_allocated_ports registry) + MCP_PORT_RANGE)
              (seq 0 10) (step EvLoad (disk w) w)) as [[port_base|] w2]; done.
Qed.

Lemma allocate_unfold_new (name : string) (w : World) :
  loaded w !! name = None →
  (allocate_port_range name w).1 = (_find_next_port_base (step EvLoad (disk w) w)).1.
Proof.
  unfold loaded, allocate_port_range, bind.
  destruct (load_spec w) as (registry & -> & _). simpl. intros ->.
  destruct (_find_next_port_base _) as [base_port w2].
  destruct (_save_registry _ w2). done.
Qed.

Lemma get_port_base_unfold_new (name : string) (w : World) :
  loaded w !! name = None →
  (get_port_base name w).1 = (allocate_port_range name (step EvLoad (disk w) w)).1.
Proof.
  unfold loaded, get_port_base, bind.
  destruct (load_spec w) as (registry & -> & _). simpl. by intros ->.
Qed.

(** C5 (as the code has it). When the port registry is empty and the first
    probed candidate is available, the first allocation assigns base port
    9100, that is [MCP_BASE_PORT + MCP_PORT_RANGE], so [get_tool_port] of
    the tool "memory" on an instance with no registry entry returns 9130. *)
Theorem first_allocation_is_9100 (instance_name : string) (w : World) :
  registered (disk w) = ∅ →
  range_free (host w) (MCP_BASE_PORT + MCP_PORT_RANGE) →
  (allocate_port_range instance_name w).1 = 9100 ∧
  (get_tool_port instance_name "memory" w).1 = 9130.
Proof.
  intros Hempty Hfree.
  assert (∀ w', host w' = host w → registered (disk w') = ∅ →
            (allocate_port_range instance_name w').1 = 9100) as Halloc.
  { intros w' Hh He.
    rewrite allocate_unfold_new by by rewrite (loaded_empty _ He).
    set (w1 := step EvLoad (disk w') w').
    rewrite (find_next_unfold w1).
    rewrite (loaded_empty w1 He), highest_port_empty.
    change (seq 0 10) with (0%nat :: seq 1 9).
    rewrite probe_candidates_first_free; [done|].
    change (host (step EvLoad (disk w1) w1)) with (host w'). rewrite Hh.
    exact Hfree. }
  split; [by apply Halloc|].
  unfold get_tool_port, bind.
  pose proof (get_port_base_unfold_new instance_name w) as Hbase.
  rewrite (loaded_empty _ Hempty), lookup_empty in Hbase. specialize (Hbase eq_refl).
  rewrite Halloc in Hbase by done.
  destruct (get_port_base instance_name w) as [base_port w1]; simpl in *.
  by subst base_port.
Qed.

Lemma all_available_refused (ports : list Z) (w : World) :
  (∀ t p, ∃ code, connect_ex (host w) t p = Returned code ∧ code ≠ 0) →
  (all_available ports w).1 = true.
Proof.
  revert w. induction ports as [|p ports IH]; intros w Hrefused; [done|].
  cbn [all_available]. unfold bind.
  pose proof (is_port_available_world p w) as [Hh _].
  assert ((_is_port_available p w).1 = true) as Hok.
  { unfold _is_port_available.
    destruct (Hrefused (now w) p) as (code & -> & Hcode).
    cbn [fst]. by destruct (Z.eqb_spec code 0). }
  destruct (_is_port_available p w) as [ok w1]; cbn [fst snd] in *. subst ok.
  cbn [negb]. apply IH. by rewrite Hh.
Qed.

Lemma quiet_host_range_free (port_base : Z) : range_free quiet_host port_base.
Proof.
  intros w Hh. apply all_available_refused. rewrite Hh.
  intros t p. by exists 111.
Qed.

Lemma crowded_host_range_busy (port_base : Z) : range_busy crowded_host port_base.
Proof.
  intros w Hh. unfold _check_port_range_available.
  cbn [all_available]. unfold bind, _is_port_available. by rewrite Hh.
Qed.

Lemma first_allocation_is_9100_witness :
  (allocate_port_range "alpha" (boot quiet_host)).1 = 9100 ∧
  (get_tool_port "alpha" "memory" (boot quiet_host)).1 = 9130.
Proof.
  apply (first_allocation_is_9100 "alpha" (boot quiet_host)).
  - reflexivity.
  - apply quiet_host_range_free.
Defined.

(** C5 as stated fails: from the empty registry, with every probed port
    free, the first allocation is 9100 and not 9000, and the port of
    "memory" is 9130 and not 9030. *)
Lemma first_allocation_not_9000 :
  registered (disk (boot quiet_host)) = ∅ ∧
  (_check_port_range_available 9000 (boot quiet_host)).1 = true ∧
  (_check_port_range_available 9100 (boot quiet_host)).1 = true ∧
  (allocate_port_range "alpha" (boot quiet_host)).1 ≠ 9000 ∧
  (get_tool_port "alpha" "memory" (boot quiet_host)).1 ≠ 9030.
Proof.
  repeat split; try reflexivity.
  - vm_compute. discriminate.
  - vm_compute. discriminate.
Qed.

(** C6 (as the code has it). In the probe of one port, a connect that
    succeeds ([connect_ex] returns 0) classifies the port as in use; a
    connect that fails with a non-zero error indicator, a timeout included,
    classifies it as available; an error raised inside the probe classifies
    it as in use. *)
Theorem probe_classifies_port (port : Z) (w : World) :
  (_is_port_available port w).1 =
    match connect_ex (host w) (now w) port with
    | Returned 0 => false
    | Returned _ => true
    | Raised => false
    end.
Proof.
  unfold _is_port_available.
  destruct (connect_ex (host w) (now w) port) as [code|]; [|done].
  by destruct code.
Qed.

(** C6 as stated fails: on a host where the probe raises (no socket to be
    had), the connect did not succeed and the port is still classified as
    in use. *)
Lemma raised_probe_is_unavailable :
  connect_ex (host (boot starved_host)) (now (boot starved_host)) 9110 ≠ Returned 0 ∧
  (_is_port_available 9110 (boot starved_host)).1 = false.
Proof. split; [discriminate|reflexivity]. Qed.

(** C7. When none of the ten candidates [next_base + i * MCP_PORT_RANGE],
    [i] in 0..9, passes the availability check, the search still answers
    with the first candidate, [next_base], which is the maximum of the
    existing bases and [MCP_BASE_PORT], plus [MCP_PORT_RANGE]; an allocation
    for a new name returns it. The registry is the one on disk, read without
    error. *)
Theorem exhausted_probes_fall_back (name : string) (w : World) :
  (∀ t, read_fails (host w) t = false) →
  (∀ i, (i < 10)%nat →
     range_busy (host w)
       (highest_port (registered (disk w)) + MCP_PORT_RANGE + Z.of_nat i * MCP_PORT_RANGE)) →
  is_max_base (registered (disk w)) (highest_port (registered (disk w))) ∧
  (_find_next_port_base w).1 = highest_port (registered (disk w)) + MCP_PORT_RANGE ∧
  (registered (disk w) !! name = None →
   (allocate_port_range name w).1 = highest_port (registered (disk w)) + MCP_PORT_RANGE).
Proof.
  intros Hread Hbusy. split; [apply highest_port_is_max|].
  assert (∀ w', host w' = host w → disk w' = disk w →
            (_find_next_port_base w').1
              = highest_port (registered (disk w)) + MCP_PORT_RANGE) as Hfind.
  { intros w' Hh Hd. rewrite find_next_unfold.
    rewrite loaded_reads_ok by (rewrite Hh; apply Hread). rewrite Hd.
    rewrite probe_candidates_all_busy; [done|].
    intros i Hi. change (host (step EvLoad (disk w) w')) with (host w'). rewrite Hh.
    apply Hbusy. apply elem_of_seq in Hi. lia. }
  split; [by apply Hfind|].
  intros Hname. rewrite allocate_unfold_new.
  - by apply Hfind.
  - by rewrite loaded_reads_ok.
Qed.

Lemma exhausted_probes_fall_back_witness :
  is_max_base (registered (disk (boot crowded_host))) 9000 ∧
  (_find_next_port_base (boot crowded_host)).1 = 9100 ∧
  (registered (disk (boot crowded_host)) !! "alpha" = None →
   (allocate_port_range "alpha" (boot crowded_host)).1 = 9100).
Proof.
  apply (exhausted_probes_fall_back "alpha" (boot crowded_host)).
  - intros t. reflexivity.
  - intros i _. apply crowded_host_range_busy.
Defined.

Lemma release_unfold_unknown (name : string) (w : World) :
  registered (disk w) !! name = None →
  release_port_range name w = (false, step EvLoad (disk w) w).
Proof.
  intros Hname. unfold release_port_range, bind.
  destruct (load_spec w) as (registry & -> & [Hreg|Hreg] & _); rewrite Hreg.
  - by rewrite Hname.
  - by rewrite lookup_empty.
Qed.

(** C10. Releasing an instance name that the registry does not hold
    returns false; the call reads the registry file and does nothing else:
    the file content is unchanged and no save is attempted. *)
Theorem release_unknown_name (name : string) (w : World) :
  registered (disk w) !! name = None →
  (release_port_range name w).1 = false ∧
  disk (release_port_range name w).2 = disk w ∧
  trace (release_port_range name w).2 = EvLoad :: trace w.
Proof. intros Hname. by rewrite release_unfold_unknown. Qed.

Lemma release_unknown_name_witness :
  (release_port_range "ghost" (boot quiet_host)).1 = false ∧
  disk (release_port_range "ghost" (boot quiet_host)).2 = disk (boot quiet_host) ∧
  trace (release_port_range "ghost" (boot quiet_host)).2 = EvLoad :: trace (boot quiet_host).
Proof. apply (release_unknown_name "ghost" (boot quiet_host)). reflexivity. Defined.

End PortManagerProofs.

(** * Facts about dictionaries *)

Module PyDictFacts.
Import PyDict.

Section facts.
Context {A : Type}.
Implicit Types (d : dict A) (k : string) (v : A).

Lemma dict_eq d1 d2 : items d1 = items d2 → d1 = d2.
Proof. intros Heq. by apply dsig_eq. Qed.

Lemma NoDup_keys d : NoDup (keys d).
Proof. apply (proj2_dsig d). Qed.

Lemma raw_lookup_None k (l : list (string * A)) : raw_lookup k l = None ↔ k ∉ l.*1.
Proof.
  induction l as [|[k' v'] l IH]; cbn [raw_lookup].
  - split; [intros _ ?%elem_of_nil|]; done.
  - rewrite fmap_cons, not_elem_of_cons. cbn [fst].
    destruct (decide (k' = k)) as [->|Hne]; [split; [done|tauto]|].
    rewrite IH. split; [intros Hk; split; [congruence|done]|tauto].
Qed.

Lemma raw_lookup_Some k v (l : list (string * A)) :
  NoDup l.*1 → raw_lookup k l = Some v ↔ (k, v) ∈ l.
Proof.
  induction l as [|[k' v'] l IH]; cbn [raw_lookup].
  - intros _. split; [done|by intros ?%elem_of_nil].
  - rewrite fmap_cons. cbn [fst]. intros [Hk' Hnd]%NoDup_cons.
    rewrite elem_of_cons. destruct (decide (k' = k)) as [->|Hne].
    + split; [intros [= ->]; by left|]. intros [[= ->]|Hin]; [done|].
      exfalso. apply Hk'. apply list_elem_of_fmap. by exists (k, v).
    + rewrite IH by done. split; [by right|]. intros [[= -> ->]|Hin]; done.
Qed.

Lemma elem_of_items d k v : (k, v) ∈ items d ↔ d !! k = Some v.
Proof. symmetry. apply raw_lookup_Some, NoDup_keys. Qed.

Lemma elem_of_keys d k : k ∈ keys d ↔ is_Some (d !! k).
Proof.
  unfold keys. rewrite list_elem_of_fmap. split.
  - intros ([k' v] & -> & Hin). exists v. by apply elem_of_items.
  - intros [v Hv]. exists (k, v). split; [done|]. by apply elem_of_items.
Qed.

Lemma dict_lookup_empty k : (∅ : dict A) !! k = None.
Proof. done. Qed.

Lemma dict_lookup_insert_eq d k v : <[k := v]> d !! k = Some v.
Proof.
  unfold lookup, dict_lookup, insert, dict_insert. cbn [items proj1_sig dexist].
  induction (items d) as [|[k' v'] l IH]; cbn [raw_insert raw_lookup].
  - by rewrite decide_True.
  - destruct (decide (k' = k)) as [->|Hne]; cbn [raw_lookup].
    + by rewrite decide_True.
    + by rewrite decide_False.
Qed.

Lemma dict_lookup_insert_ne d k k' v : k ≠ k' → <[k := v]> d !! k' = d !! k'.
Proof.
  intros Hne. unfold lookup, dict_lookup, insert, dict_insert. cbn [items proj1_sig dexist].
  induction (items d) as [|[k0 v0] l IH]; cbn [raw_insert raw_lookup].
  - by rewrite decide_False.
  - destruct (decide (k0 = k)) as [->|Hne0]; cbn [raw_lookup].
    + by rewrite !decide_False.
    + by rewrite IH.
Qed.

Lemma dict_lookup_insert d k k' v :
  <[k := v]> d !! k' = if decide (k = k') then Some v else d !! k'.
Proof.
  destruct (decide (k = k')) as [<-|Hne].
  - apply dict_lookup_insert_eq.
  - by apply dict_lookup_insert_ne.
Qed.

Lemma dict_lookup_alter_eq (f : A → A) d k : alter f k d !! k = f <$> d !! k.
Proof.
  unfold lookup, dict_lookup, alter, dict_alter. cbn [items proj1_sig dexist].
  induction (items d) as [|[k' v'] l IH]; cbn [raw_alter raw_lookup]; [done|].
  destruct (decide (k' = k)) as [->|Hne]; cbn [raw_lookup].
  - by rewrite decide_True.
  - by rewrite decide_False.
Qed.

Lemma dict_lookup_alter_ne (f : A → A) d k k' : k ≠ k' → alter f k d !! k' = d !! k'.
Proof.
  intros Hne. unfold lookup, dict_lookup, alter, dict_alter. cbn [items proj1_sig dexist].
  induction (items d) as [|[k0 v0] l IH]; cbn [raw_alter raw_lookup]; [done|].
  destruct (decide (k0 = k)) as [->|Hne0]; cbn [raw_lookup].
  - by rewrite !decide_False.
  - by rewrite IH.
Qed.

Lemma dict_lookup_alter (f : A → A) d k k' :
  alter f k d !! k' = if decide (k = k') then f <$> d !! k else d !! k'.
Proof.
  destruct (decide (k = k')) as [<-|Hne].
  - apply dict_lookup_alter_eq.
  - by apply dict_lookup_alter_ne.
Qed.

Lemma dict_lookup_delete_ne d k k' : k ≠ k' → delete k d !! k' = d !! k'.
Proof.
  intros Hne. unfold lookup, dict_lookup, delete, dict_delete. cbn [items proj1_sig dexist].
  induction (items d) as [|[k0 v0] l IH]; cbn [raw_delete raw_lookup]; [done|].
  destruct (decide (k0 = k)) as [->|Hne0]; cbn [raw_lookup].
  - by rewrite decide_False.
  - by rewrite IH.
Qed.

Lemma dict_lookup_delete_eq d k : delete k d !! k = None.
Proof.
  unfold lookup, dict_lookup, delete, dict_delete. cbn [items proj1_sig dexist].
  pose proof (NoDup_keys d) as Hnd. unfold keys in Hnd.
  induction (items d) as [|[k0 v0] l IH]; cbn [raw_delete raw_lookup]; [done|].
  rewrite fmap_cons in Hnd. cbn [fst] in Hnd. apply NoDup_cons in Hnd as [Hk0 Hnd].
  destruct (decide (k0 = k)) as [->|Hne0]; cbn [raw_lookup].
  - by apply raw_lookup_None.
  - rewrite decide_False by done. by apply IH.
Qed.

(** Assigning to a key that is there leaves the order of the keys alone; a
    new key goes last. *)
Lemma keys_insert d k v :
  keys (<[k := v]> d) = if decide (k ∈ keys d) then keys d else keys d ++ [k].
Proof. apply raw_insert_keys. Qed.

Lemma keys_alter (f : A → A) d k : keys (alter f k d) = keys d.
Proof. apply raw_alter_keys. Qed.

End facts.

End PyDictFacts.

(** * Properties of the process supervisor *)

Module ServerManagerProofs.
Import PyDict PyDictFacts ServerManager.

Local Open Scope string_scope.

(** ** The running-process table under updates of one entry *)

Lemma tracked_set_servers_alter_insert (i s i' s' : string) (p : Proc) (st : Manager) :
  is_Some (servers st !! i') →
  tracked i s (set_servers (alter (insert s' p) i') st)
    = if decide (i = i' ∧ s = s') then Some p else tracked i s st.
Proof.
  intros [inner Hinner]. unfold tracked, set_servers. cbn [servers].
  rewrite dict_lookup_alter. destruct (decide (i' = i)) as [<-|Hi].
  - rewrite Hinner. cbn. rewrite dict_lookup_insert.
    destruct (decide (s' = s)) as [<-|Hs].
    + by rewrite decide_True.
    + rewrite decide_False; [done|]. intros [_ ->]. by apply Hs.
  - rewrite decide_False; [done|]. intros [-> _]. by apply Hi.
Qed.

Lemma tracked_emit (i s : string) (sig : Signal) (st : Manager) :
  tracked i s (emit sig st) = tracked i s st.
Proof. done. Qed.

Lemma tracked_is_Some_outer (i s : string) (p : Proc) (st : Manager) :
  tracked i s st = Some p → is_Some (servers st !! i).
Proof. unfold tracked. destruct (servers st !! i); [eauto|done]. Qed.

(** C3 (what the code does instead). For every tracked pair whose process
    is still alive, [stop_server] leaves the pair's entry in the
    running-process table, whatever it returns: the removal that follows
    the termination sequence is not reached on this path. *)
Theorem stop_alive_keeps_entry (i s : string) (p : Proc) (st : Manager) :
  tracked i s st = Some p → alive p = true →
  is_Some (tracked i s (stop_server i s st).2).
Proof.
  intros Htr Hal. unfold stop_server. rewrite Htr, Hal.
  pose proof (tracked_is_Some_outer _ _ _ _ Htr) as Hout.
  destruct (reaction p); cbn [snd]; rewrite ?tracked_emit.
  - rewrite tracked_set_servers_alter_insert by done. rewrite decide_True; eauto.
  - rewrite tracked_set_servers_alter_insert by done. rewrite decide_True; eauto.
  - rewrite Htr. eauto.
  - rewrite Htr. eauto.
Qed.

Lemma stop_alive_keeps_entry_witness :
  is_server_running "alpha" "memory" memory_started = true ∧
  (stop_server "alpha" "memory" memory_started).1 = true ∧
  is_Some (tracked "alpha" "memory" (stop_server "alpha" "memory" memory_started).2).
Proof.
  split; [reflexivity|]. split; [reflexivity|].
  apply (stop_alive_keeps_entry "alpha" "memory"
           {| pid := 4000; returncode := None; stdout := [];
              reaction := ExitsOnTerminate 0 |} memory_started); reflexivity.
Defined.

(** ** The loop of [start_all_servers] *)

Lemma start_all_loop_after_failure (h : Host) (i : string)
    (items : list (string * ServerConfig)) (st : Manager) :
  start_all_loop h i items false st = (false, st).
Proof.
  induction items as [|[name sc] rest IH]; [done|].
  cbn [start_all_loop]. by destruct (default false (autoStart sc)).
Qed.

(** C4 (what the code does instead). With two auto-start servers of which
    the first cannot be launched, [start_all_servers] returns false and
    never attempts the second: [Popen] is called once, and the memory
    server, which starts fine on its own, is left untracked. *)
Theorem start_all_skips_after_failure :
  (start_server flaky_host "alpha" "broken" idle).1 = false ∧
  (start_server flaky_host "alpha" "memory" idle).1 = true ∧
  (start_all_servers flaky_host "alpha" idle).1 = false ∧
  launches (start_all_servers flaky_host "alpha" idle).2 = 1%nat ∧
  tracked "alpha" "memory" (start_all_servers flaky_host "alpha" idle).2 = None.
Proof. repeat split; vm_compute; reflexivity. Qed.

(** ** Starting without a configuration entry *)

Lemma tracked_fresh_instance (i s : string) (st : Manager) :
  servers st !! i = None →
  tracked i s (set_server_logs (insert i ∅) (set_servers (insert i ∅) st)) = tracked i s st.
Proof.
  intros Hi. unfold tracked, set_server_logs, set_servers. cbn [servers].
  rewrite dict_lookup_insert_eq, Hi. cbn. apply dict_lookup_empty.
Qed.

(** C8 (as the code has it). When the instance's configuration document
    is absent or has no entry for the server, [start_server] creates no
    tracking entry and leaves the pair's entry as it was; it returns false
    unless the pair is already tracked with a live process, which is
    checked first and makes it return true. In particular an untracked pair
    gets false and stays untracked. *)
Theorem start_without_config_entry (h : Host) (i s : string) (st : Manager) :
  no_config_entry h i s →
  (start_server h i s st).1 = is_server_running i s st ∧
  tracked i s (start_server h i s st).2 = tracked i s st ∧
  (tracked i s st = None →
   (start_server h i s st).1 = false ∧ tracked i s (start_server h i s st).2 = None).
Proof.
  intros Hno.
  assert ((start_server h i s st).1 = is_server_running i s st ∧
          tracked i s (start_server h i s st).2 = tracked i s st) as [Hr Ht].
  { unfold start_server, is_server_running, no_config_entry in *.
    set (st0 := match servers st !! i with
                | Some _ => st
                | None => set_server_logs (insert i ∅) (set_servers (insert i ∅) st)
                end).
    assert (tracked i s st0 = tracked i s st) as Hst0.
    { subst st0. destruct (servers st !! i) eqn:Hi; [done|].
      by apply tracked_fresh_instance. }
    rewrite Hst0.
    destruct (tracked i s st) as [p|] eqn:Htr.
    - destruct (alive p) eqn:Hal; [done|].
      destruct (get_instance_mcp_config h i) as [config|]; [|done].
      destruct (is_empty_config config); [done|].
      destruct (mcpServers config) as [mcp|]; [|done].
      by rewrite Hno.
    - destruct (get_instance_mcp_config h i) as [config|]; [|done].
      destruct (is_empty_config config); [done|].
      destruct (mcpServers config) as [mcp|]; [|done].
      by rewrite Hno. }
  split; [done|]. split; [done|].
  intros Hnone. rewrite Hr, Ht. unfold is_server_running. by rewrite Hnone.
Qed.

Lemma start_without_config_entry_witness :
  (start_server bare_host "alpha" "memory" idle).1 = is_server_running "alpha" "memory" idle ∧
  tracked "alpha" "memory" (start_server bare_host "alpha" "memory" idle).2
    = tracked "alpha" "memory" idle ∧
  (tracked "alpha" "memory" idle = None →
   (start_server bare_host "alpha" "memory" idle).1 = false ∧
   tracked "alpha" "memory" (start_server bare_host "alpha" "memory" idle).2 = None).
Proof. apply (start_without_config_entry bare_host "alpha" "memory" idle). exact I. Defined.

(** C8 as stated fails: the memory server of "alpha" is running, its
    configuration document is gone, and [start_server] returns true with
    the pair still tracked. *)
Lemma start_without_config_reports_running :
  no_config_entry bare_host "alpha" "memory" ∧
  (start_server bare_host "alpha" "memory" memory_started).1 = true ∧
  is_Some (tracked "alpha" "memory" (start_server bare_host "alpha" "memory" memory_started).2).
Proof. split; [exact I|]. split; [reflexivity|]. vm_compute. eauto. Qed.

(** ** The methods on small inputs *)

Example strip_line :
  strip (written "  ready  ") = "ready" ∧
  strip (written (utf8 [194; 160]%nat)) = "" ∧
  strip (utf8 [226; 128; 137]%nat +:+ "a b" +:+ utf8 [227; 128; 128]%nat) = "a b".
Proof. repeat split; vm_compute; reflexivity. Qed.

Example port_from_args :
  get_port_from_args demo_host ["-y"; "pkg"; "--port"; "9130"] = 9130%Z ∧
  get_port_from_args demo_host ["-y"; "pkg"; "--port"] = 0%Z ∧
  get_port_from_args demo_host ["-y"; "pkg"] = 0%Z.
Proof. repeat split; reflexivity. Qed.

Example child_sees_port :
  child_env demo_host "alpha" memory_config 9130 !! "MCP_PORT" = Some "9130" ∧
  child_env demo_host "alpha" memory_config 9130 !! "CLAUDE_INSTANCE" = Some "alpha".
Proof. split; vm_compute; reflexivity. Qed.

(** Stopping a second time takes the other path and drops the entry. *)
Example second_stop_drops_entry :
  let st1 := (stop_server "alpha" "memory" memory_started).2 in
  (stop_server "alpha" "memory" st1).1 = true ∧
  tracked "alpha" "memory" (stop_server "alpha" "memory" st1).2 = None.
Proof. split; vm_compute; reflexivity. Qed.

(** The tables are walked in the order in which the servers were started.
    When the server started first cannot be stopped, [stop_all_servers]
    gives up before it comes to the second; started last, it is the only
    one left running. *)
Example stop_all_in_start_order :
  let st := tracking (<["memory" := chatty]> (<["zeta" := stubborn]> ∅)) in
  let st' := tracking (<["zeta" := stubborn]> (<["memory" := chatty]> ∅)) in
  get_running_servers "alpha" st = ["zeta"; "memory"] ∧
  (stop_all_servers "alpha" st).1 = false ∧
  get_running_servers "alpha" (stop_all_servers "alpha" st).2 = ["zeta"; "memory"] ∧
  (stop_all_servers "alpha" st').1 = false ∧
  get_running_servers "alpha" (stop_all_servers "alpha" st').2 = ["zeta"].
Proof. repeat split; vm_compute; reflexivity. Qed.

(** A blank line ends the pass: it is dropped and the lines after it wait
    for the next pass. A line of no-break spaces is blank as well. *)
Example blank_line_ends_the_pass :
  let out := [Ready (written "one"); Ready (written ""); Ready (written "two")] in
  let st := (start_server (speaking_host out) "alpha" "memory" idle).2 in
  let out' := [Ready (written (utf8 [194; 160]%nat)); Ready (written "after")] in
  let st' := (start_server (speaking_host out') "alpha" "memory" idle).2 in
  get_server_log "alpha" "memory" (update_server_logs st).2 = ["one"] ∧
  get_server_log "alpha" "memory" (update_server_logs (update_server_logs st).2).2
    = ["one"; "two"] ∧
  get_server_log "alpha" "memory" (update_server_logs st').2 = [].
Proof. repeat split; vm_compute; reflexivity. Qed.

(** A [readline()] that raises ends the pass there: what was read before
    is in the log and the exception leaves [update_server_logs]. *)
Example raising_look_ends_the_pass :
  let out := [Ready (written "one"); Broken Raised; Ready (written "two")] in
  let st := (start_server (speaking_host out) "alpha" "memory" idle).2 in
  (update_server_logs st).1 = Fails Raised ∧
  get_server_log "alpha" "memory" (update_server_logs st).2 = ["one"].
Proof. split; vm_compute; reflexivity. Qed.

(** ** The capped log *)

Lemma last_n_short {A} (n : nat) (l : list A) : (length l ≤ n)%nat → last_n n l = l.
Proof.
  intros Hl. unfold last_n. by replace (length l - n)%nat with 0%nat by lia.
Qed.

Lemma last_n_length {A} (n : nat) (l : list A) : (length (last_n n l) ≤ n)%nat.
Proof. unfold last_n. rewrite length_drop. lia. Qed.

Lemma last_n_app_last_n {A} (n : nat) (l xs : list A) :
  last_n n (last_n n l ++ xs) = last_n n (l ++ xs).
Proof.
  unfold last_n. rewrite !length_app, length_drop.
  rewrite <- (drop_app_le l xs (length l - n)) by lia.
  rewrite drop_drop. f_equal. lia.
Qed.

Lemma cap_is_last_n (log : list string) :
  (if (1000 <? length log)%nat then last_n 1000 log else log) = last_n 1000 log.
Proof.
  destruct (Nat.ltb_spec 1000 (length log)); [done|].
  symmetry. apply last_n_short. lia.
Qed.

(** A pass over a stream appends the lines it reads and keeps the newest
    1000. *)
Lemma drain_log_lines_read (pending : list Pending) (log : option (list string)) :
  (length (default [] log) ≤ 1000)%nat →
  default [] (drain_log pending log)
    = last_n 1000 (default [] log ++ lines_read pending).
Proof.
  revert log. induction pending as [|[line| |e] rest IH]; intros log Hlen.
  - cbn. rewrite app_nil_r. by rewrite last_n_short.
  - cbn [drain_log lines_read].
    destruct (nonempty line && nonempty (strip line)).
    + rewrite IH.
      * cbn [default]. unfold id.
        by rewrite cap_is_last_n, last_n_app_last_n, <- app_assoc.
      * cbn [default]. unfold id. rewrite cap_is_last_n. apply last_n_length.
    + rewrite app_nil_r. by rewrite last_n_short.
  - cbn. rewrite app_nil_r. by rewrite last_n_short.
  - cbn. rewrite app_nil_r. by rewrite last_n_short.
Qed.

(** ** How reading moves the logs *)

Lemma log_at_append_log (i s i' s' line : string) (st : Manager) :
  log_at i s (set_server_logs (append_log i' s' line) st) =
    if decide (i = i' ∧ s = s')
    then Some (let log' := (default [] (log_at i s st) ++ [line])%list in
               if (1000 <? length log')%nat then last_n 1000 log' else log')
    else log_at i s st.
Proof.
  unfold log_at, set_server_logs, append_log. cbn [server_logs].
  destruct (decide (i = i' ∧ s = s')) as [[-> ->]|Hne].
  - rewrite dict_lookup_insert_eq. cbn. rewrite dict_lookup_insert_eq.
    destruct (server_logs st !! i') as [inner|] eqn:Hi; cbn.
    + rewrite Hi. cbn. destruct (inner !! s') eqn:Hs; cbn.
      * by rewrite Hs.
      * by rewrite dict_lookup_insert_eq.
    + rewrite dict_lookup_insert_eq. cbn. rewrite dict_lookup_empty. cbn.
      by rewrite dict_lookup_insert_eq.
  - destruct (decide (i = i')) as [->|Hi'].
    + assert (s ≠ s') as Hs' by (intros ->; by apply Hne).
      rewrite dict_lookup_insert_eq. cbn. rewrite dict_lookup_insert_ne by done.
      destruct (server_logs st !! i') as [inner|] eqn:Hi; cbn.
      * rewrite Hi. cbn. destruct (inner !! s') eqn:Hs; [done|].
        by rewrite dict_lookup_insert_ne.
      * rewrite dict_lookup_insert_eq. cbn. rewrite dict_lookup_empty.
        rewrite dict_lookup_insert_ne by done. by rewrite dict_lookup_empty.
    + rewrite dict_lookup_insert_ne by done.
      destruct (server_logs st !! i') as [inner|] eqn:Hi; [done|].
      by rewrite dict_lookup_insert_ne.
Qed.

Lemma read_loop_log_at (fuel : nat) (i s i' s' : string) (p : Proc) (st : Manager) :
  (length (stdout p) < fuel)%nat →
  log_at i s (read_loop fuel i' s' p st).2.2 =
    if decide (i = i' ∧ s = s') then drain_log (stdout p) (log_at i s st) else log_at i s st.
Proof.
  revert p st. induction fuel as [|fuel IH]; intros p st Hfuel; [lia|].
  cbn [read_loop]. unfold _read_line_nonblock.
  destruct (stdout p) as [|[line| |e] rest] eqn:Hout.
  - cbn. by destruct (decide _).
  - cbn [drain_log]. destruct (nonempty line); cbn [andb].
    + destruct (nonempty (strip line)).
      * rewrite IH by (cbn in *; lia). cbn [stdout set_stdout].
        change (log_at i s (emit ?sig ?st')) with (log_at i s st').
        rewrite log_at_append_log. by destruct (decide _).
      * cbn. by destruct (decide _).
    + cbn. by destruct (decide _).
  - cbn. by destruct (decide _).
  - cbn. by destruct (decide _).
Qed.

(** Reading from one process: the log of its pair is drained, no other log
    moves. *)
Lemma read_process_output_log_at (i s i' s' : string) (p : Proc) (st : Manager) :
  log_at i s
    (set_servers (alter (insert s' (_read_process_output i' s' p st).2.1) i')
       (_read_process_output i' s' p st).2.2) =
    if decide (i = i' ∧ s = s') then drain_log (stdout p) (log_at i s st) else log_at i s st.
Proof.
  change (log_at i s (set_servers ?f ?st')) with (log_at i s st').
  apply read_loop_log_at. lia.
Qed.

Lemma update_instance_logs_unfold (i s : string) (p : Proc) (rest : list (string * Proc))
    (st : Manager) :
  update_instance_logs i ((s, p) :: rest) st =
    if alive p then
      let st' := set_servers (alter (insert s (_read_process_output i s p st).2.1) i)
                   (_read_process_output i s p st).2.2 in
      match (_read_process_output i s p st).1 with
      | Returns _ => update_instance_logs i rest st'
      | Fails e => (Fails e, st')
      end
    else update_instance_logs i rest st.
Proof.
  cbn [update_instance_logs]. destruct (alive p); [|done].
  by destruct (_read_process_output i s p st) as [r [p' st']].
Qed.

(** The inner loop leaves the logs of other instances and of servers that
    are not among its items alone. *)
Lemma inner_loop_other (i s i' : string) (l : list (string * Proc)) (st : Manager) :
  i ≠ i' ∨ s ∉ l.*1 →
  log_at i s (update_instance_logs i' l st).2 = log_at i s st.
Proof.
  revert st. induction l as [|[s' p] l IH]; intros st Hother; [done|].
  assert (i ≠ i' ∨ s ∉ l.*1) as Hrest.
  { destruct Hother as [?|Hs]; [by left|]. right. intros Hin. apply Hs. by right. }
  assert (¬ (i = i' ∧ s = s')) as Hne.
  { intros [-> ->]. destruct Hother as [?|Hs]; [done|]. apply Hs. left. }
  rewrite update_instance_logs_unfold. destruct (alive p); [|by apply IH].
  pose proof (read_process_output_log_at i s i' s' p st) as Hread.
  rewrite decide_False in Hread by done.
  destruct (_read_process_output i' s' p st).1; cbn zeta.
  - by rewrite IH.
  - done.
Qed.

(** What the inner loop does to the log of one of its items: nothing, or
    one drain of its stream; the drain has taken place when the loop
    returns. *)
Lemma inner_loop_entry (i s : string) (p : Proc) (l : list (string * Proc)) (st : Manager) :
  NoDup l.*1 → (s, p) ∈ l →
  (log_at i s (update_instance_logs i l st).2 = log_at i s st ∨
   alive p = true ∧
   log_at i s (update_instance_logs i l st).2 = drain_log (stdout p) (log_at i s st)) ∧
  ((update_instance_logs i l st).1 = Returns () →
   log_at i s (update_instance_logs i l st).2
     = if alive p then drain_log (stdout p) (log_at i s st) else log_at i s st).
Proof.
  intros Hnd Hin. revert st.
  induction l as [|[s' p'] l IH]; intros st; [by apply elem_of_nil in Hin|].
  rewrite fmap_cons in Hnd. apply NoDup_cons in Hnd as [Hs' Hnd].
  rewrite update_instance_logs_unfold.
  apply elem_of_cons in Hin as [Heq|Hin].
  - injection Heq as <- <-. destruct (alive p) eqn:Hal.
    + pose proof (read_process_output_log_at i s i s p st) as Hread.
      rewrite decide_True in Hread by done.
      destruct (_read_process_output i s p st).1; cbn zeta.
      * rewrite inner_loop_other by by right. split; [by right|done].
      * cbn [fst snd]. split; [by right|done].
    + rewrite inner_loop_other by by right. split; [by left|done].
  - assert (s ≠ s') as Hne.
    { intros ->. apply Hs'. apply list_elem_of_fmap. by exists (s', p). }
    destruct (alive p'); [|by apply IH].
    pose proof (read_process_output_log_at i s i s' p' st) as Hread.
    rewrite decide_False in Hread by (by intros [_ ?]).
    destruct (_read_process_output i s' p' st).1; cbn zeta.
    + rewrite <- Hread. by apply IH.
    + cbn [fst snd]. split; [by left|done].
Qed.

Lemma update_logs_loop_unfold (i : string) (inner : PyDict.dict Proc)
    (rest : list (string * PyDict.dict Proc)) (st : Manager) :
  update_logs_loop ((i, inner) :: rest) st =
    match (update_instance_logs i (items inner) st).1 with
    | Returns _ => update_logs_loop rest (update_instance_logs i (items inner) st).2
    | Fails e => (Fails e, (update_instance_logs i (items inner) st).2)
    end.
Proof.
  cbn [update_logs_loop]. by destruct (update_instance_logs i (items inner) st) as [[?|?] ?].
Qed.

Lemma outer_loop_other (i s : string) (l : list (string * PyDict.dict Proc)) (st : Manager) :
  i ∉ l.*1 → log_at i s (update_logs_loop l st).2 = log_at i s st.
Proof.
  revert st. induction l as [|[i' inner] l IH]; intros st Hi; [done|].
  apply not_elem_of_cons in Hi as [Hne Hi].
  rewrite update_logs_loop_unfold.
  pose proof (inner_loop_other i s i' (items inner) st (or_introl Hne)) as Hinner.
  destruct (update_instance_logs i' (items inner) st).1; cbn [snd].
  - by rewrite IH.
  - done.
Qed.

Lemma outer_loop_entry (i s : string) (inner : PyDict.dict Proc) (p : Proc)
    (l : list (string * PyDict.dict Proc)) (st : Manager) :
  NoDup l.*1 → (i, inner) ∈ l → inner !! s = Some p →
  (log_at i s (update_logs_loop l st).2 = log_at i s st ∨
   alive p = true ∧
   log_at i s (update_logs_loop l st).2 = drain_log (stdout p) (log_at i s st)) ∧
  ((update_logs_loop l st).1 = Returns () →
   log_at i s (update_logs_loop l st).2
     = if alive p then drain_log (stdout p) (log_at i s st) else log_at i s st).
Proof.
  intros Hnd Hin Hs. revert st.
  induction l as [|[i' inner'] l IH]; intros st; [by apply elem_of_nil in Hin|].
  rewrite fmap_cons in Hnd. apply NoDup_cons in Hnd as [Hi' Hnd].
  rewrite update_logs_loop_unfold.
  apply elem_of_cons in Hin as [Heq|Hin].
  - injection Heq as <- <-.
    apply elem_of_items in Hs.
    destruct (inner_loop_entry i s p (items inner) st (NoDup_keys inner) Hs) as [Hany Hret].
    destruct (update_instance_logs i (items inner) st).1 as [[]|e] eqn:Hr; cbn [fst snd].
    + rewrite outer_loop_other by done. split; [done|]. intros _. by apply Hret.
    + split; [done|]. done.
  - assert (i ≠ i') as Hne.
    { intros ->. apply Hi'. apply list_elem_of_fmap. by exists (i', inner). }
    pose proof (inner_loop_other i s i' (items inner') st (or_introl Hne)) as Hinner.
    destruct (update_instance_logs i' (items inner') st).1; cbn [fst snd].
    + rewrite <- Hinner. by apply IH.
    + split; [by left|done].
Qed.

(** The log of any pair after one pass: it is as it was, or the stream of
    the pair's process, which is then running, has been drained into it. *)
Lemma update_server_logs_log (i s : string) (st : Manager) :
  log_at i s (update_server_logs st).2 = log_at i s st ∨
  ∃ p, tracked i s st = Some p ∧ alive p = true ∧
       log_at i s (update_server_logs st).2 = drain_log (stdout p) (log_at i s st).
Proof.
  unfold update_server_logs.
  destruct (tracked i s st) as [p|] eqn:Htr.
  - unfold tracked in Htr. destruct (servers st !! i) as [inner|] eqn:Hi; [|done].
    cbn in Htr. apply elem_of_items in Hi.
    destruct (outer_loop_entry i s inner p _ st (NoDup_keys _) Hi Htr) as [[Hsame|[Hal Hdr]] _].
    + by left.
    + right. by exists p.
  - left. unfold tracked in Htr. destruct (servers st !! i) as [inner|] eqn:Hi.
    + cbn in Htr. apply elem_of_items in Hi.
      assert (∀ l st, NoDup l.*1 → (i, inner) ∈ l →
                log_at i s (update_logs_loop l st).2 = log_at i s st) as Hloop.
      { clear -Htr. intros l. induction l as [|[i' inner'] l IH]; intros st Hnd Hin;
          [by apply elem_of_nil in Hin|].
        rewrite fmap_cons in Hnd. apply NoDup_cons in Hnd as [Hi' Hnd].
        rewrite update_logs_loop_unfold.
        assert (log_at i s (update_instance_logs i' (items inner') st).2 = log_at i s st)
          as Hinner.
        { apply elem_of_cons in Hin as [Heq|Hin].
          - injection Heq as <- <-. apply inner_loop_other. right.
            intros Hk. apply (elem_of_keys inner s) in Hk as [x Hx]. by rewrite Hx in Htr.
          - apply inner_loop_other. left. intros ->. apply Hi'.
            apply list_elem_of_fmap. by exists (i', inner). }
        destruct (update_instance_logs i' (items inner') st).1; cbn [snd]; [|done].
        apply elem_of_cons in Hin as [Heq|Hin].
        - injection Heq as <- <-. by rewrite outer_loop_other.
        - rewrite <- Hinner. by apply IH. }
      by apply Hloop; [apply NoDup_keys|].
    + apply outer_loop_other. intros Hk.
      apply (elem_of_keys (servers st) i) in Hk as [x Hx]. by rewrite Hx in Hi.
Qed.

(** One pass of [update_server_logs] that returns has drained every
    tracked, live process. *)
Lemma update_server_logs_returns (i s : string) (p : Proc) (st : Manager) :
  tracked i s st = Some p → alive p = true →
  (update_server_logs st).1 = Returns () →
  log_at i s (update_server_logs st).2 = drain_log (stdout p) (log_at i s st).
Proof.
  unfold tracked, update_server_logs. intros Htr Hal Hret.
  destruct (servers st !! i) as [inner|] eqn:Hi; [|done]. cbn in Htr.
  apply elem_of_items in Hi.
  destruct (outer_loop_entry i s inner p _ st (NoDup_keys _) Hi Htr) as [_ Hdone].
  rewrite Hdone by done. by rewrite Hal.
Qed.

(** ** Start, drain, stop *)



Lemma stop_server_logs (i s : string) (st : Manager) :
  server_logs (stop_server i s st).2 = server_logs st.
Proof.
  unfold stop_server. destruct (tracked i s st) as [p|]; [|done].
  destruct (alive p); [|done]. by destruct (reaction p).
Qed.




(** A line that is not there to be read when the pass looks for it is not
    in the log after start, drain and stop, whether it sits in the reader's
    buffer or has yet to be written. *)
Example unread_line_is_not_logged :
  get_server_log "alpha" "memory"
    (start_drain_stop
       (speaking_host [Ready (written "one"); Held; Ready (written "two")])
       "alpha" "memory" idle)
    = ["one"].
Proof. vm_compute. reflexivity. Qed.

End ServerManagerProofs.

(** * Further properties of the port allocator *)

Module PortManagerMore.
Import PortManager PortManagerProofs.

(** ** Initialisation *)

(** X1. [_initialize_registry] never changes the recorded allocations: a
    file that exists, readable or not, is left exactly as it is and nothing
    is written; a missing file becomes the empty registry when the write
    succeeds. *)
Theorem initialize_keeps_allocations (w : World) :
  registered (disk (_initialize_registry w).2) = registered (disk w) ∧
  (disk w ≠ Missing → (_initialize_registry w).2 = w) ∧
  (disk w = Missing → write_result (host w) (now w) = Written →
   disk (_initialize_registry w).2 = Stored fresh_registry).
Proof.
  unfold _initialize_registry.
  destruct (disk w) as [| |registry] eqn:Hd.
  - destruct (write_result (host w) (now w)) eqn:Hw; cbn; by rewrite ?Hd.
  - cbn. by rewrite Hd.
  - cbn. by rewrite Hd.
Qed.

(** ** The range check *)

Lemma check_looks_at_four_ports_aux (port_base : Z) (w : World) :
  (_check_port_range_available port_base w).1
    = probe_ok (host w) (now w) (port_base + 10)
      && probe_ok (host w) (1 + now w) (port_base + 20)
      && probe_ok (host w) (2 + now w) (port_base + 30)
      && probe_ok (host w) (3 + now w) (port_base + 40).
Proof.
  unfold _check_port_range_available, all_available, bind, _is_port_available, probe_ok.
  cbn [host now disk step].
  destruct (connect_ex (host w) (now w) (port_base + 10)) as [c1|];
    [destruct (c1 =? 0)|]; cbn; try done.
  destruct (connect_ex (host w) (S (now w)) (port_base + 20)) as [c2|];
    [destruct (c2 =? 0)|]; cbn; try done.
  destruct (connect_ex (host w) (S (S (now w))) (port_base + 30)) as [c3|];
    [destruct (c3 =? 0)|]; cbn; try done.
  destruct (connect_ex (host w) (S (S (S (now w)))) (port_base + 40)) as [c4|];
    [destruct (c4 =? 0)|]; cbn; done.
Qed.

(** [_check_port_range_available] asks about the four ports at offsets
    10, 20, 30 and 40 of the base, in this order and one request after the
    other, and about no other port; it makes at most four requests and
    leaves the registry file alone. Its answer is the conjunction of the
    four probes. *)
Theorem check_looks_at_four_ports (port_base : Z) (w : World) :
  let r := _check_port_range_available port_base w in
  r.1 = probe_ok (host w) (now w) (port_base + 10)
        && probe_ok (host w) (1 + now w) (port_base + 20)
        && probe_ok (host w) (2 + now w) (port_base + 30)
        && probe_ok (host w) (3 + now w) (port_base + 40) ∧
  (now w < now r.2 ≤ 4 + now w)%nat ∧
  disk r.2 = disk w ∧ host r.2 = host w.
Proof.
  unfold _check_port_range_available, all_available, bind, _is_port_available, probe_ok.
  cbn [host now disk step].
  destruct (connect_ex (host w) (now w) (port_base + 10)) as [c1|];
    [destruct (c1 =? 0)|]; cbn; try (repeat split; lia).
  destruct (connect_ex (host w) (S (now w)) (port_base + 20)) as [c2|];
    [destruct (c2 =? 0)|]; cbn; try (repeat split; lia).
  destruct (connect_ex (host w) (S (S (now w))) (port_base + 30)) as [c3|];
    [destruct (c3 =? 0)|]; cbn; try (repeat split; lia).
  destruct (connect_ex (host w) (S (S (S (now w)))) (port_base + 40)) as [c4|];
    [destruct (c4 =? 0)|]; cbn; repeat split; lia.
Qed.

(** ** The search for the next base *)

Lemma find_next_candidate (w : World) :
  ∃ i, (i < 10)%nat ∧
       (_find_next_port_base w).1
         = highest_port (loaded w) + MCP_PORT_RANGE + Z.of_nat i * MCP_PORT_RANGE.
Proof.
  rewrite find_next_unfold.
  pose proof (probe_candidates_spec (highest_port (loaded w) + MCP_PORT_RANGE)
                (seq 0 10) (step EvLoad (disk w) w)) as (_ & _ & Hsome).
  destruct (probe_candidates _ _ _).1 as [port_base|].
  - destruct (Hsome port_base eq_refl) as (i & Hin & ->).
    exists i. apply elem_of_seq in Hin. split; [lia|done].
  - exists 0%nat. split; [lia|]. cbn. lia.
Qed.

(** X2. Whatever the state of the file and of the host, the base that
    [_find_next_port_base] returns is one of the ten candidates above the
    highest base it has read, so it is at least
    [MCP_BASE_PORT + MCP_PORT_RANGE] (the base 9000 is never returned) and at
    most ten ranges above the highest base; the search writes nothing. *)
Theorem find_next_is_a_candidate (w : World) :
  (∃ i, (i < 10)%nat ∧
        (_find_next_port_base w).1
          = highest_port (loaded w) + MCP_PORT_RANGE + Z.of_nat i * MCP_PORT_RANGE) ∧
  MCP_BASE_PORT + MCP_PORT_RANGE ≤ (_find_next_port_base w).1 ∧
  (_find_next_port_base w).1 ≤ highest_port (loaded w) + 10 * MCP_PORT_RANGE ∧
  disk (_find_next_port_base w).2 = disk w.
Proof.
  destruct (find_next_candidate w) as (i & Hi & Hres).
  split; [by exists i|].
  pose proof (highest_port_base (loaded w)).
  destruct (find_next_spec w) as (_ & _ & _ & _ & Hd & _).
  rewrite Hres. unfold MCP_PORT_RANGE in *. repeat split; [lia|lia|done].
Qed.

Lemma probe_candidates_skips_busy (next_base : Z) (pre : list nat) (k : nat)
    (post : list nat) (w : World) :
  (∀ i, i ∈ pre → range_busy (host w) (next_base + Z.of_nat i * MCP_PORT_RANGE)) →
  range_free (host w) (next_base + Z.of_nat k * MCP_PORT_RANGE) →
  (probe_candidates next_base (pre ++ k :: post) w).1
    = Some (next_base + Z.of_nat k * MCP_PORT_RANGE).
Proof.
  revert w. induction pre as [|i pre IH]; intros w Hbusy Hfree.
  - by apply probe_candidates_first_free.
  - cbn [app probe_candidates]. unfold bind.
    pose proof (Hbusy i (list_elem_of_here _ _) w eq_refl) as Hi.
    pose proof (check_world (next_base + Z.of_nat i * MCP_PORT_RANGE) w) as [Hh _].
    destruct (_check_port_range_available _ w) as [ok w1]; cbn [fst snd] in *. subst ok.
    apply IH; rewrite Hh; [|done]. intros j Hj. apply Hbusy. by right.
Qed.

(** X3. [_find_next_port_base] picks the first candidate that passes the
    range check: when the candidates before the [k]-th are in use and the
    [k]-th is free, it returns the [k]-th candidate. *)
Theorem find_next_picks_first_free (k : nat) (w : World) :
  (k < 10)%nat →
  (∀ i, (i < k)%nat →
     range_busy (host w)
       (highest_port (loaded w) + MCP_PORT_RANGE + Z.of_nat i * MCP_PORT_RANGE)) →
  range_free (host w)
    (highest_port (loaded w) + MCP_PORT_RANGE + Z.of_nat k * MCP_PORT_RANGE) →
  (_find_next_port_base w).1
    = highest_port (loaded w) + MCP_PORT_RANGE + Z.of_nat k * MCP_PORT_RANGE.
Proof.
  intros Hk Hbusy Hfree. rewrite find_next_unfold.
  assert (seq 0 10 = seq 0 k ++ k :: seq (S k) (9 - k)) as ->.
  { change (k :: seq (S k) (9 - k)) with (seq k (S (9 - k))).
    replace k with (0 + k)%nat at 2 by done. rewrite <- seq_app. f_equal. lia. }
  rewrite probe_candidates_skips_busy; [done| |done].
  intros i Hi. apply Hbusy. apply elem_of_seq in Hi. lia.
Qed.

Lemma half_busy_host_busy (port_base : Z) :
  port_base + 10 < 9200 → range_busy half_busy_host port_base.
Proof.
  intros Hlt w Hh. unfold _check_port_range_available.
  cbn [all_available]. unfold bind, _is_port_available. rewrite Hh. cbn.
  destruct (Z.ltb_spec (port_base + 10) 9200); [done|lia].
Qed.

Lemma half_busy_host_free (port_base : Z) :
  9200 ≤ port_base → range_free half_busy_host port_base.
Proof.
  intros Hge w Hh.
  pose proof (check_looks_at_four_ports_aux port_base w) as Hr.
  rewrite Hr. unfold probe_ok. rewrite Hh. cbn.
  rewrite !(proj2 (Z.ltb_ge _ 9200)) by lia. done.
Qed.

Lemma find_next_picks_first_free_witness :
  (_find_next_port_base (boot half_busy_host)).1 = 9200.
Proof.
  apply (find_next_picks_first_free 1 (boot half_busy_host)).
  - lia.
  - intros i Hi. apply half_busy_host_busy.
    replace i with 0%nat by lia. vm_compute. reflexivity.
  - apply half_busy_host_free. vm_compute. discriminate.
Defined.

(** ** Allocation *)

(** X4. A base allocated for a new name lies a full range above every base
    the registry holds at that moment, whatever the probes say and whether
    or not the save succeeds; so the gap a released instance leaves below
    the highest base is never handed out again. *)
Theorem new_allocation_above_all (name : string) (w : World) :
  (∀ t, read_fails (host w) t = false) →
  registered (disk w) !! name = None →
  ∀ k v, registered (disk w) !! k = Some v →
    v + MCP_PORT_RANGE ≤ (allocate_port_range name w).1.
Proof.
  intros Hread Hname k v Hk.
  rewrite allocate_unfold_new by by rewrite loaded_reads_ok.
  set (w1 := step EvLoad (disk w) w).
  destruct (find_next_candidate w1) as (i & _ & ->).
  rewrite loaded_reads_ok by apply Hread.
  pose proof (highest_port_lookup _ _ _ Hk). cbn [disk w1 step].
  unfold MCP_PORT_RANGE. lia.
Qed.

Lemma new_allocation_above_all_witness :
  9200 + MCP_PORT_RANGE ≤ (allocate_port_range "gamma" (two_instances quiet_host)).1.
Proof.
  apply (new_allocation_above_all "gamma" (two_instances quiet_host)
           (λ _, eq_refl) eq_refl "beta"%string 9200).
  reflexivity.
Defined.

(** X5. Under normal I/O an allocation is recorded under its name and the
    entries of all other instances stay as they were: the registry only
    grows. *)
Theorem allocation_is_recorded (name : string) (w : World) :
  normal_io (host w) →
  registered (disk (allocate_port_range name w).2) !! name
    = Some (allocate_port_range name w).1 ∧
  ∀ other, other ≠ name →
    registered (disk (allocate_port_range name w).2) !! other
      = registered (disk w) !! other.
Proof.
  intros Hio. pose proof (allocate_spec name w Hio) as [_ Hcase]. cbv zeta in Hcase.
  destruct (registered (disk w) !! name) as [port|] eqn:Hname.
  - destruct Hcase as (-> & -> & _). done.
  - destruct Hcase as (_ & ->). rewrite lookup_insert_eq. split; [done|].
    intros other Hne. by rewrite lookup_insert_ne.
Qed.

Lemma allocation_is_recorded_witness :
  registered (disk (allocate_port_range "gamma" (two_instances quiet_host)).2) !! "gamma"%string
    = Some (allocate_port_range "gamma" (two_instances quiet_host)).1 ∧
  ∀ other, other ≠ "gamma"%string →
    registered (disk (allocate_port_range "gamma" (two_instances quiet_host)).2) !! other
      = registered (disk (two_instances quiet_host)) !! other.
Proof.
  apply (allocation_is_recorded "gamma" (two_instances quiet_host)).
  intros t. split; reflexivity.
Defined.

(** X6. An allocation answers with a base even when the registry file
    cannot be written: the save does not take place, the file is as it was
    and still lacks the name. *)
Theorem allocation_survives_failed_save (name : string) (w : World) :
  (∀ t, write_result (host w) t = OpenDenied) →
  registered (disk w) !! name = None →
  MCP_BASE_PORT + MCP_PORT_RANGE ≤ (allocate_port_range name w).1 ∧
  disk (allocate_port_range name w).2 = disk w.
Proof.
  intros Hwrite Hname.
  assert (loaded w !! name = None) as Hloaded.
  { unfold loaded. destruct (load_spec w) as (registry & Hl & [Hr|Hr] & _);
      rewrite Hl; cbn [fst]; rewrite Hr; [done|apply lookup_empty]. }
  split.
  - rewrite allocate_unfold_new by done.
    destruct (find_next_candidate (step EvLoad (disk w) w)) as (j & _ & ->).
    pose proof (highest_port_base (loaded (step EvLoad (disk w) w))).
    unfold MCP_PORT_RANGE in *. lia.
  - unfold allocate_port_range, bind. unfold loaded in Hloaded.
    destruct (load_spec w) as (registry & Hload & _). rewrite Hload in *.
    cbn [fst] in Hloaded. rewrite Hloaded.
    destruct (find_next_spec (step EvLoad (disk w) w)) as (_ & _ & _ & Hh & Hd & _).
    destruct (_find_next_port_base _) as [base_port w2]. cbn [fst snd] in *.
    unfold _save_registry. rewrite Hh. cbn [host step]. rewrite Hwrite. cbn. by rewrite Hd.
Qed.

Lemma allocation_survives_failed_save_witness :
  MCP_BASE_PORT + MCP_PORT_RANGE ≤ (allocate_port_range "alpha" (boot readonly_host)).1 ∧
  disk (allocate_port_range "alpha" (boot readonly_host)).2 = disk (boot readonly_host).
Proof.
  apply (allocation_survives_failed_save "alpha" (boot readonly_host)).
  - intros t. reflexivity.
  - reflexivity.
Defined.

(** ** [get_port_base] and [get_tool_port] *)

(** [get_port_base] under normal I/O, in the shape of [allocate_spec]. *)
Lemma get_port_base_spec (name : string) (w : World) :
  normal_io (host w) →
  host (get_port_base name w).2 = host w ∧
  match registered (disk w) !! name with
  | Some port =>
      (get_port_base name w).1 = port ∧ disk (get_port_base name w).2 = disk w ∧
      trace (get_port_base name w).2 = EvLoad :: trace w
  | None =>
      highest_port (registered (disk w)) + MCP_PORT_RANGE ≤ (get_port_base name w).1 ∧
      registered (disk (get_port_base name w).2)
        = <[name := (get_port_base name w).1]> (registered (disk w))
  end.
Proof.
  intros Hio.
  destruct (load_spec w) as (registry & Hload & _ & Hreg).
  specialize (Hreg (proj1 (Hio _))).
  unfold get_port_base, bind. rewrite Hload, Hreg.
  destruct (registered (disk w) !! name) as [port|] eqn:Hname; [done|].
  pose proof (allocate_spec name (step EvLoad (disk w) w) Hio) as [Hh Hcase].
  cbv zeta in Hcase. cbn [disk step] in Hcase. rewrite Hname in Hcase. done.
Qed.

(** After the call the registry holds the answer under the name, keeps
    what it held and stays spaced. *)
Lemma get_port_base_registered (name : string) (w : World) :
  normal_io (host w) →
  host (get_port_base name w).2 = host w ∧
  registered (disk (get_port_base name w).2) !! name = Some (get_port_base name w).1 ∧
  registered (disk w) ⊆ registered (disk (get_port_base name w).2) ∧
  (spaced (registered (disk w)) → spaced (registered (disk (get_port_base name w).2))).
Proof.
  intros Hio. pose proof (get_port_base_spec name w Hio) as [Hh Hcase].
  split; [done|].
  destruct (registered (disk w) !! name) as [port|] eqn:Hname.
  - destruct Hcase as (-> & -> & _). done.
  - destruct Hcase as (Hge & ->). rewrite lookup_insert_eq.
    split; [done|]. split; [by apply insert_subseteq|].
    intros Hsp. by apply spaced_insert_above.
Qed.


(** X7. Under normal I/O [get_port_base] leaves the instance registered at
    the base it returns, and asking again, through [get_port_base] or
    through [allocate_port_range], returns the same base without writing. *)
Theorem get_port_base_is_stable (name : string) (w : World) :
  normal_io (host w) →
  let r := get_port_base name w in
  registered (disk r.2) !! name = Some r.1 ∧
  (get_port_base name r.2).1 = r.1 ∧
  (allocate_port_range name r.2).1 = r.1 ∧
  disk (get_port_base name r.2).2 = disk r.2 ∧
  disk (allocate_port_range name r.2).2 = disk r.2.
Proof.
  intros Hio r. subst r.
  pose proof (get_port_base_registered name w Hio) as (Hh & Hname & _).
  destruct (get_port_base name w) as [base w1]; cbn [fst snd] in *.
  assert (normal_io (host w1)) as Hio1 by by rewrite Hh.
  pose proof (get_port_base_spec name w1 Hio1) as [_ Hg].
  pose proof (allocate_spec name w1 Hio1) as [_ Ha]. cbv zeta in Ha.
  rewrite Hname in Hg, Ha.
  destruct Hg as (-> & -> & _). destruct Ha as (-> & -> & _). done.
Qed.

Lemma get_port_base_is_stable_witness :
  let r := get_port_base "alpha" (boot quiet_host) in
  registered (disk r.2) !! "alpha"%string = Some r.1 ∧
  (get_port_base "alpha" r.2).1 = r.1 ∧
  (allocate_port_range "alpha" r.2).1 = r.1 ∧
  disk (get_port_base "alpha" r.2).2 = disk r.2 ∧
  disk (allocate_port_range "alpha" r.2).2 = disk r.2.
Proof.
  apply (get_port_base_is_stable "alpha" (boot quiet_host)).
  intros t. split; reflexivity.
Defined.

(** Every offset, the default included, lies between 10 and 90. *)
Lemma offset_of_bounds (tool_name : string) : 10 ≤ offset_of tool_name ≤ 90.
Proof.
  unfold offset_of, offsets. cbn [list_find fst snd].
  repeat (case_decide; [simpl; lia|]). simpl. lia.
Qed.



Lemma get_tool_port_unfold (instance_name tool_name : string) (w : World) :
  get_tool_port instance_name tool_name w
    = ((get_port_base instance_name w).1 + offset_of tool_name,
       (get_port_base instance_name w).2).
Proof. unfold get_tool_port, bind, ret. by destruct (get_port_base instance_name w). Qed.

(** X8. Under normal I/O the port [get_tool_port] returns lies inside the
    range of the instance: between 10 and 90 above the base the registry
    then holds for the instance. *)
Theorem tool_port_in_instance_range (instance_name tool_name : string) (w : World) :
  normal_io (host w) →
  ∃ base,
    registered (disk (get_tool_port instance_name tool_name w).2) !! instance_name
      = Some base ∧
    base + 10 ≤ (get_tool_port instance_name tool_name w).1 ≤ base + 90 ∧
    in_range base (get_tool_port instance_name tool_name w).1.
Proof.
  intros Hio. rewrite get_tool_port_unfold. cbn [fst snd].
  pose proof (get_port_base_registered instance_name w Hio) as (_ & Hname & _).
  exists (get_port_base instance_name w).1. split; [done|].
  pose proof (offset_of_bounds tool_name). unfold in_range, MCP_PORT_RANGE. lia.
Qed.

Lemma tool_port_in_instance_range_witness :
  ∃ base,
    registered (disk (get_tool_port "alpha" "repl" (boot quiet_host)).2) !! "alpha"%string
      = Some base ∧
    base + 10 ≤ (get_tool_port "alpha" "repl" (boot quiet_host)).1 ≤ base + 90 ∧
    in_range base (get_tool_port "alpha" "repl" (boot quiet_host)).1.
Proof.
  apply (tool_port_in_instance_range "alpha" "repl" (boot quiet_host)).
  intros t. split; reflexivity.
Defined.

(** X9. Under normal I/O and from a spaced registry, tool ports of two
    different instances never coincide, whatever the two tools are. *)
Theorem tool_ports_of_instances_differ (name1 name2 tool1 tool2 : string) (w : World) :
  normal_io (host w) → spaced (registered (disk w)) → name1 ≠ name2 →
  let r1 := get_tool_port name1 tool1 w in
  let r2 := get_tool_port name2 tool2 r1.2 in
  r1.1 ≠ r2.1.
Proof.
  intros Hio Hsp Hne r1 r2. subst r1 r2.
  rewrite !get_tool_port_unfold. cbn [fst snd].
  pose proof (get_port_base_registered name1 w Hio) as (Hh1 & Hn1 & _ & Hsp1).
  specialize (Hsp1 Hsp).
  destruct (get_port_base name1 w) as [base1 w1]; cbn [fst snd] in *.
  assert (normal_io (host w1)) as Hio1 by by rewrite Hh1.
  pose proof (get_port_base_registered name2 w1 Hio1) as (_ & Hn2 & Hsub & Hsp2).
  specialize (Hsp2 Hsp1).
  destruct (get_port_base name2 w1) as [base2 w2]; cbn [fst snd] in *.
  pose proof (lookup_weaken _ _ _ _ Hn1 Hsub) as Hn1'.
  pose proof (Hsp2 name1 name2 base1 base2 Hne Hn1' Hn2) as Hab.
  pose proof (offset_of_bounds tool1). pose proof (offset_of_bounds tool2).
  unfold MCP_PORT_RANGE in Hab. lia.
Qed.

Lemma tool_ports_of_instances_differ_witness :
  let r1 := get_tool_port "alpha" "memory" (boot quiet_host) in
  let r2 := get_tool_port "beta" "memory" r1.2 in
  r1.1 ≠ r2.1.
Proof.
  apply (tool_ports_of_instances_differ "alpha" "beta" "memory" "memory" (boot quiet_host)).
  - intros t. split; reflexivity.
  - intros k1 k2 v1 v2 _ H1. exfalso. revert H1.
    change (registered (disk (boot quiet_host))) with (∅ : gmap string Z).
    by rewrite lookup_empty.
  - discriminate.
Defined.



(** ** Release *)

Lemma spaced_subseteq (m1 m2 : gmap string Z) : m1 ⊆ m2 → spaced m2 → spaced m1.
Proof.
  intros Hsub Hsp k1 k2 v1 v2 Hne H1 H2.
  exact (Hsp k1 k2 v1 v2 Hne (lookup_weaken _ _ _ _ H1 Hsub) (lookup_weaken _ _ _ _ H2 Hsub)).
Qed.

(** X11. Under normal I/O, releasing a registered instance returns true
    and removes exactly its entry: the name is gone from the file, every
    other instance keeps its base, and a spaced registry stays spaced. A
    second release of the same name returns false. *)
Theorem release_removes_entry (name : string) (port : Z) (w : World) :
  normal_io (host w) →
  registered (disk w) !! name = Some port →
  let r := release_port_range name w in
  r.1 = true ∧
  registered (disk r.2) = delete name (registered (disk w)) ∧
  (spaced (registered (disk w)) → spaced (registered (disk r.2))) ∧
  (release_port_range name r.2).1 = false.
Proof.
  intros Hio Hname r. subst r.
  assert (release_port_range name w
          = (true, step (EvSave {| allocated_ports := Some (delete name (registered (disk w))) |}
                           Written)
                     (Stored {| allocated_ports := Some (delete name (registered (disk w))) |})
                     (step EvLoad (disk w) w))) as Hrel.
  { destruct (load_spec w) as (registry & Hload & _ & Hreg).
    specialize (Hreg (proj1 (Hio _))).
    unfold release_port_range, bind. rewrite Hload, Hreg, Hname.
    unfold _save_registry. cbn [host step]. rewrite (proj2 (Hio _)). done. }
  rewrite Hrel. cbn [fst snd disk step registered get_allocated_ports allocated_ports default].
  split; [done|]. split; [done|]. split.
  - apply spaced_subseteq, delete_subseteq.
  - rewrite release_unfold_unknown; [done|]. cbn. apply lookup_delete_eq.
Qed.

Lemma release_removes_entry_witness :
  let r := release_port_range "alpha" (two_instances quiet_host) in
  r.1 = true ∧
  registered (disk r.2) = delete "alpha"%string (registered (disk (two_instances quiet_host))) ∧
  (spaced (registered (disk (two_instances quiet_host))) → spaced (registered (disk r.2))) ∧
  (release_port_range "alpha" r.2).1 = false.
Proof.
  apply (release_removes_entry "alpha" 9100 (two_instances quiet_host)).
  - intros t. split; reflexivity.
  - reflexivity.
Defined.

(** X12. [release_port_range] reports success without looking at the
    outcome of the save: when the registry file cannot be opened for
    writing, releasing a registered instance still returns true while the
    file, unchanged, still holds the entry. *)
Theorem release_ignores_failed_save (name : string) (port : Z) (w : World) :
  read_fails (host w) (now w) = false →
  write_result (host w) (S (now w)) = OpenDenied →
  registered (disk w) !! name = Some port →
  (release_port_range name w).1 = true ∧
  disk (release_port_range name w).2 = disk w ∧
  registered (disk (release_port_range name w).2) !! name = Some port.
Proof.
  intros Hread Hwrite Hname.
  destruct (load_spec w) as (registry & Hload & _ & Hreg). specialize (Hreg Hread).
  unfold release_port_range, bind. rewrite Hload, Hreg, Hname.
  unfold _save_registry. cbn [host now step]. rewrite Hwrite. done.
Qed.

Lemma release_ignores_failed_save_witness :
  (release_port_range "alpha" (two_instances readonly_host)).1 = true ∧
  disk (release_port_range "alpha" (two_instances readonly_host)).2
    = disk (two_instances readonly_host) ∧
  registered (disk (release_port_range "alpha" (two_instances readonly_host)).2) !! "alpha"%string
    = Some 9100.
Proof.
  apply (release_ignores_failed_save "alpha" 9100 (two_instances readonly_host));
    reflexivity.
Defined.

End PortManagerMore.

(** * Further properties of the process supervisor *)

Module ServerManagerMore.
Import PyDict PyDictFacts ServerManager ServerManagerProofs.

Local Open Scope string_scope.

(** ** The port argument *)

Lemma find_flag (pre rest : list string) :
  "--port" ∉ pre →
  list_find (λ a, a = "--port") (pre ++ "--port" :: rest) = Some (length pre, "--port").
Proof.
  intros Hpre. apply list_find_Some. split_and!.
  - by rewrite list_lookup_middle.
  - done.
  - intros j y Hj Hlt ->. apply Hpre.
    rewrite lookup_app_l in Hj by done. by eapply list_elem_of_lookup_2.
Qed.

Lemma find_flag_absent (args : list string) :
  "--port" ∉ args → list_find (λ a, a = "--port") args = None.
Proof. intros Hno. apply list_find_None, Forall_forall. by intros x Hx ->. Qed.

Lemma port_from_args_value (h : Host) (pre post : list string) (value : string) :
  "--port" ∉ pre →
  get_port_from_args h (pre ++ "--port" :: value :: post) = default 0%Z (py_int h value).
Proof.
  intros Hpre. unfold get_port_from_args. rewrite find_flag by done.
  rewrite (cons_middle "--port" pre), app_assoc.
  rewrite list_lookup_middle by (rewrite length_app; cbn; lia). done.
Qed.

(** X13. [get_port_from_args] converts the argument that follows the first
    ["--port"], and answers 0 when there is no ["--port"], when ["--port"]
    is the last argument, or when the argument after it is not a number. *)
Theorem port_from_args_after_first_flag (h : Host) :
  (∀ args, "--port" ∉ args → get_port_from_args h args = 0%Z) ∧
  (∀ pre, "--port" ∉ pre → get_port_from_args h (pre ++ ["--port"]) = 0%Z) ∧
  (∀ pre value post, "--port" ∉ pre →
     get_port_from_args h (pre ++ "--port" :: value :: post)
       = default 0%Z (py_int h value)).
Proof.
  unfold get_port_from_args. split_and!.
  - intros args Hno. by rewrite find_flag_absent.
  - intros pre Hpre. rewrite find_flag by done.
    rewrite lookup_ge_None_2; [done|]. rewrite length_app. cbn. lia.
  - intros pre value post Hpre. by apply (port_from_args_value h).
Qed.

(** ** The environment of the child *)

Lemma foldl_insert_lookup (l : list (string * string)) (m : gmap string string) (k : string) :
  foldl (λ e kv, <[kv.1 := kv.2]> e) m l !! k
    = match assoc k (reverse l) with
      | Some v => Some v
      | None => m !! k
      end.
Proof.
  induction l as [|[k' v'] l IH] using rev_ind; [done|].
  rewrite foldl_snoc, reverse_snoc. cbn [fst snd].
  unfold assoc. cbn [list_find fst snd].
  destruct (decide (k' = k)) as [->|Hne].
  - by rewrite lookup_insert_eq.
  - rewrite lookup_insert_ne by done. rewrite IH. unfold assoc.
    by destruct (list_find (λ kv, kv.1 = k) (reverse l)) as [[? [? ?]]|].
Qed.

(** X14. The environment passed to [Popen] always carries the port under
    MCP_PORT and MCP_SERVER_PORT and the instance name under
    CLAUDE_INSTANCE, whatever the configuration or the tool's own
    environment say for these names; any other variable has its configured
    value (the last one given) and otherwise the value inherited from the
    tool. *)
Theorem child_env_precedence (h : Host) (instance_name : string)
    (server_config : ServerConfig) (port : Z) :
  child_env h instance_name server_config port !! "MCP_PORT" = Some (pretty port) ∧
  child_env h instance_name server_config port !! "MCP_SERVER_PORT" = Some (pretty port) ∧
  child_env h instance_name server_config port !! "CLAUDE_INSTANCE" = Some instance_name ∧
  ∀ k, k ≠ "MCP_PORT" → k ≠ "MCP_SERVER_PORT" → k ≠ "CLAUDE_INSTANCE" →
    child_env h instance_name server_config port !! k
      = match assoc k (reverse (default [] (env server_config))) with
        | Some v => Some v
        | None => os_environ h !! k
        end.
Proof.
  unfold child_env. split_and!.
  - rewrite lookup_insert_ne by done. rewrite lookup_insert_ne by done.
    by rewrite lookup_insert_eq.
  - rewrite lookup_insert_ne by done. by rewrite lookup_insert_eq.
  - by rewrite lookup_insert_eq.
  - intros k H1 H2 H3. rewrite !lookup_insert_ne by done.
    apply foldl_insert_lookup.
Qed.

(** ** Starting *)

Lemma idle_tables_agree : tables_agree idle.
Proof.
  intros i [x Hx]. exfalso. revert Hx.
  change (servers idle) with (∅ : dict (dict Proc)).
  by rewrite dict_lookup_empty.
Qed.

(** X15. Starting a server that is tracked and alive changes nothing: the
    call returns true, no process is launched, the handle, the log and the
    signals stay as they were. *)
Theorem start_running_is_noop (h : Host) (i s : string) (st : Manager) :
  is_server_running i s st = true → start_server h i s st = (true, st).
Proof.
  unfold is_server_running, start_server. intros Hrun.
  destruct (tracked i s st) as [p|] eqn:Htr; [|done].
  destruct (tracked_is_Some_outer _ _ _ _ Htr) as [inner ->].
  by rewrite Htr, Hrun.
Qed.

Lemma start_running_is_noop_witness :
  start_server bare_host "alpha" "memory" memory_started = (true, memory_started).
Proof. apply (start_running_is_noop bare_host "alpha" "memory" memory_started). reflexivity. Defined.

Lemma with_instance_tracked (i i' s' : string) (st : Manager) :
  tracked i' s' (with_instance i st) = tracked i' s' st.
Proof.
  unfold with_instance. destruct (servers st !! i) eqn:Hi; [done|].
  unfold tracked, set_server_logs, set_servers. cbn [servers].
  destruct (decide (i = i')) as [<-|Hne].
  - rewrite dict_lookup_insert_eq, Hi. cbn. apply dict_lookup_empty.
  - by rewrite dict_lookup_insert_ne.
Qed.

Lemma with_instance_tables (i : string) (st : Manager) :
  tables_agree st →
  is_Some (servers (with_instance i st) !! i) ∧
  is_Some (server_logs (with_instance i st) !! i).
Proof.
  intros Hag. unfold with_instance. destruct (servers st !! i) eqn:Hi.
  - split; [by rewrite Hi|]. apply Hag. by rewrite Hi.
  - cbn. by rewrite !dict_lookup_insert_eq.
Qed.

Lemma tracked_set_inner (i s i' s' : string) (p : Proc)
    (d d' : dict (dict Proc)) :
  set_inner i s p d = Some d' →
  d' !! i' ≫= (.!! s') = if decide (i' = i ∧ s' = s) then Some p else d !! i' ≫= (.!! s').
Proof.
  unfold set_inner. destruct (d !! i) as [inner|] eqn:Hi; [|done]. cbn.
  intros [= <-]. destruct (decide (i' = i)) as [->|Hne].
  - rewrite dict_lookup_insert_eq, Hi. cbn. destruct (decide (s' = s)) as [->|Hs].
    + by rewrite dict_lookup_insert_eq, decide_True.
    + rewrite dict_lookup_insert_ne by done. rewrite decide_False; [done|]. by intros [_ ?].
  - rewrite dict_lookup_insert_ne by done. rewrite decide_False; [done|]. by intros [? _].
Qed.

(** X16. A successful launch: when the pair is not running, the instance's
    document has an entry for the server and [Popen] succeeds, in a manager
    whose two tables agree, [start_server] returns true, tracks the new
    process under the pair, gives the pair an empty log and emits
    [server_started]; the process is launched with the configured command
    followed by the configured arguments. *)
Theorem start_launches_configured_command (h : Host) (i s : string)
    (config : Config) (mcp : list (string * ServerConfig)) (server_config : ServerConfig)
    (process : Proc) (st : Manager) :
  tables_agree st →
  is_server_running i s st = false →
  get_instance_mcp_config h i = Some config →
  mcpServers config = Some mcp →
  assoc s mcp = Some server_config →
  popen h (launches st)
    (default "npx" (command server_config) :: default [] (args server_config))
    (child_env h i server_config
       (get_port_from_args h (default [] (args server_config)))) = Some process →
  (start_server h i s st).1 = true ∧
  tracked i s (start_server h i s st).2 = Some process ∧
  get_server_log i s (start_server h i s st).2 = [] ∧
  emitted (start_server h i s st).2 = server_started s :: emitted st ∧
  launches (start_server h i s st).2 = S (launches st).
Proof.
  intros Hag Hrun Hconfig Hmcp Hentry Hpopen.
  unfold start_server. fold (with_instance i st).
  pose proof (with_instance_tracked i i s st) as Htr.
  destruct (with_instance_tables i st Hag) as [[inner Hs] [linner Hl]].
  assert (launches (with_instance i st) = launches st) as Hlaunch.
  { unfold with_instance. by destruct (servers st !! i). }
  assert (emitted (with_instance i st) = emitted st) as Hemit.
  { unfold with_instance. by destruct (servers st !! i). }
  rewrite Htr. unfold is_server_running in Hrun. rewrite Hrun.
  rewrite Hconfig. unfold is_empty_config. rewrite Hmcp, Hentry.
  rewrite Hlaunch, Hpopen.
  unfold set_inner. cbn [servers server_logs count_launch set_servers].
  rewrite Hs. cbn. rewrite Hl. cbn.
  unfold tracked, get_server_log. cbn.
  rewrite !dict_lookup_insert_eq. cbn. rewrite !dict_lookup_insert_eq.
  by rewrite Hlaunch, Hemit.
Qed.

Lemma start_launches_configured_command_witness :
  (start_server demo_host "alpha" "memory" idle).1 = true ∧
  tracked "alpha" "memory" (start_server demo_host "alpha" "memory" idle).2
    = Some {| pid := 4000; returncode := None; stdout := [];
              reaction := ExitsOnTerminate 0 |} ∧
  get_server_log "alpha" "memory" (start_server demo_host "alpha" "memory" idle).2 = [] ∧
  emitted (start_server demo_host "alpha" "memory" idle).2
    = server_started "memory" :: emitted idle ∧
  launches (start_server demo_host "alpha" "memory" idle).2 = S (launches idle).
Proof.
  apply (start_launches_configured_command demo_host "alpha" "memory"
           {| mcpServers := Some [("memory", memory_config)]; other_keys := false |}
           [("memory", memory_config)] memory_config
           {| pid := 4000; returncode := None; stdout := [];
              reaction := ExitsOnTerminate 0 |} idle).
  - apply idle_tables_agree.
  - reflexivity.
  - reflexivity.
  - reflexivity.
  - reflexivity.
  - reflexivity.
Defined.

(** [start_server] never changes the entry of a pair other than its own. *)
Lemma start_server_tracked_other (h : Host) (i s i' s' : string) (st : Manager) :
  ¬ (i' = i ∧ s' = s) →
  tracked i' s' (start_server h i s st).2 = tracked i' s' st.
Proof.
  intros Hne. unfold start_server. fold (with_instance i st).
  pose proof (with_instance_tracked i i' s' st) as Htr.
  repeat case_match; cbn [snd]; try done.
  all: unfold tracked in *; cbn [servers emit set_server_logs set_servers count_launch] in *.
  all: try (erewrite tracked_set_inner by eassumption; by rewrite decide_False).
Qed.

Lemma stop_server_tracked_other (i s i' s' : string) (st : Manager) :
  ¬ (i' = i ∧ s' = s) →
  tracked i' s' (stop_server i s st).2 = tracked i' s' st.
Proof.
  intros Hne. unfold stop_server.
  destruct (tracked i s st) as [p|] eqn:Htr; [|done].
  pose proof (tracked_is_Some_outer _ _ _ _ Htr) as [inner Hinner].
  assert (∀ f : dict Proc → dict Proc,
            (∀ m, f m !! s' = m !! s' ∨ i' ≠ i) →
            tracked i' s' (set_servers (alter f i) st) = tracked i' s' st) as Halter.
  { intros f Hf. unfold tracked, set_servers. cbn [servers].
    destruct (decide (i' = i)) as [->|Hi].
    - rewrite dict_lookup_alter_eq, Hinner. cbn. by destruct (Hf inner).
    - by rewrite dict_lookup_alter_ne. }
  assert (i' ≠ i ∨ s' ≠ s) as Hcases.
  { destruct (decide (i' = i)); [right|by left]. intros ->. by apply Hne. }
  destruct (alive p); [destruct (reaction p)|]; cbn [snd];
    rewrite ?tracked_emit; try done; apply Halter; intros m;
    (destruct Hcases as [?|?]; [by right|left]).
  - by rewrite dict_lookup_insert_ne.
  - by rewrite dict_lookup_insert_ne.
  - by rewrite dict_lookup_delete_ne.
Qed.

(** X17. [start_server] and [stop_server] act on their own pair only: the
    entry of every other (instance, server) pair stays as it was; and
    [stop_server] leaves every captured log in place. *)
Theorem other_pairs_untouched (h : Host) (i s i' s' : string) (st : Manager) :
  ¬ (i' = i ∧ s' = s) →
  tracked i' s' (start_server h i s st).2 = tracked i' s' st ∧
  tracked i' s' (stop_server i s st).2 = tracked i' s' st ∧
  ∀ i'' s'', get_server_log i'' s'' (stop_server i s st).2 = get_server_log i'' s'' st.
Proof.
  intros Hne. split; [by apply start_server_tracked_other|].
  split; [by apply stop_server_tracked_other|].
  intros i'' s''. unfold get_server_log. by rewrite stop_server_logs.
Qed.

Lemma other_pairs_untouched_witness :
  tracked "alpha" "repl" (start_server demo_host "alpha" "memory" busy_manager).2
    = tracked "alpha" "repl" busy_manager ∧
  tracked "alpha" "repl" (stop_server "alpha" "memory" busy_manager).2
    = tracked "alpha" "repl" busy_manager ∧
  ∀ i'' s'', get_server_log i'' s'' (stop_server "alpha" "memory" busy_manager).2
               = get_server_log i'' s'' busy_manager.
Proof.
  apply (other_pairs_untouched demo_host "alpha" "memory" "alpha" "repl" busy_manager).
  intros [_ Heq]. discriminate Heq.
Defined.

(** X18. A launch that fails: when the pair is not running, the document
    has an entry for the server and [Popen] raises, [start_server] returns
    false and the process table is as it was for every pair; an entry of an
    exited process that the pair had stays. *)
Theorem failed_launch_tracks_nothing (h : Host) (i s : string)
    (config : Config) (mcp : list (string * ServerConfig)) (server_config : ServerConfig)
    (st : Manager) :
  is_server_running i s st = false →
  get_instance_mcp_config h i = Some config →
  mcpServers config = Some mcp →
  assoc s mcp = Some server_config →
  popen h (launches st)
    (default "npx" (command server_config) :: default [] (args server_config))
    (child_env h i server_config
       (get_port_from_args h (default [] (args server_config)))) = None →
  (start_server h i s st).1 = false ∧
  (∀ i' s', tracked i' s' (start_server h i s st).2 = tracked i' s' st) ∧
  emitted (start_server h i s st).2 = emitted st.
Proof.
  intros Hrun Hconfig Hmcp Hentry Hpopen.
  unfold start_server. fold (with_instance i st).
  assert (launches (with_instance i st) = launches st) as Hlaunch.
  { unfold with_instance. by destruct (servers st !! i). }
  assert (emitted (with_instance i st) = emitted st) as Hemit.
  { unfold with_instance. by destruct (servers st !! i). }
  rewrite with_instance_tracked. unfold is_server_running in Hrun. rewrite Hrun.
  rewrite Hconfig. unfold is_empty_config. rewrite Hmcp, Hentry.
  rewrite Hlaunch, Hpopen. cbn [fst snd].
  split; [done|]. split; [|done].
  intros i' s'. apply (with_instance_tracked i i' s' st).
Qed.

Lemma failed_launch_tracks_nothing_witness :
  (start_server flaky_host "alpha" "broken" idle).1 = false ∧
  (∀ i' s', tracked i' s' (start_server flaky_host "alpha" "broken" idle).2
              = tracked i' s' idle) ∧
  emitted (start_server flaky_host "alpha" "broken" idle).2 = emitted idle.
Proof.
  apply (failed_launch_tracks_nothing flaky_host "alpha" "broken"
           {| mcpServers := Some [("broken", broken_config); ("memory", memory_config)];
              other_keys := false |}
           [("broken", broken_config); ("memory", memory_config)] broken_config idle);
    reflexivity.
Defined.

(** ** Stopping *)

Lemma stop_server_true_not_running (i s : string) (st : Manager) :
  (stop_server i s st).1 = true → is_server_running i s (stop_server i s st).2 = false.
Proof.
  unfold stop_server, is_server_running.
  destruct (tracked i s st) as [p|] eqn:Htr; [|done].
  pose proof (tracked_is_Some_outer _ _ _ _ Htr) as Hout.
  destruct (alive p) eqn:Hal; [destruct (reaction p)|]; cbn [fst snd]; try done; intros _.
  - rewrite tracked_emit, tracked_set_servers_alter_insert by done.
    by rewrite decide_True.
  - rewrite tracked_emit, tracked_set_servers_alter_insert by done.
    by rewrite decide_True.
  - destruct Hout as [inner Hinner]. unfold tracked, set_servers. cbn [servers].
    rewrite dict_lookup_alter_eq, Hinner. cbn. by rewrite dict_lookup_delete_eq.
Qed.

Lemma stop_server_not_running_untracks (i s : string) (st : Manager) :
  is_server_running i s st = false → tracked i s (stop_server i s st).2 = None.
Proof.
  unfold stop_server, is_server_running.
  destruct (tracked i s st) as [p|] eqn:Htr; [|done].
  intros ->. cbn [snd].
  destruct (tracked_is_Some_outer _ _ _ _ Htr) as [inner Hinner].
  unfold tracked, set_servers. cbn [servers].
  rewrite dict_lookup_alter_eq, Hinner. cbn. by rewrite dict_lookup_delete_eq.
Qed.

(** X19. When [stop_server] returns true the server is no longer running;
    the pair's entry may still be in the table, and one more call of
    [stop_server] leaves the pair untracked. *)
Theorem stop_twice_untracks (i s : string) (st : Manager) :
  (stop_server i s st).1 = true →
  is_server_running i s (stop_server i s st).2 = false ∧
  tracked i s (stop_server i s (stop_server i s st).2).2 = None.
Proof.
  intros Hok. pose proof (stop_server_true_not_running i s st Hok) as Hnot.
  split; [done|]. by apply stop_server_not_running_untracks.
Qed.

Lemma stop_twice_untracks_witness :
  is_server_running "alpha" "memory" (stop_server "alpha" "memory" memory_started).2 = false ∧
  tracked "alpha" "memory"
    (stop_server "alpha" "memory" (stop_server "alpha" "memory" memory_started).2).2 = None.
Proof. apply (stop_twice_untracks "alpha" "memory" memory_started). reflexivity. Defined.

(** ** Liveness queries *)

Lemma running_servers_elem (i s : string) (st : Manager) :
  s ∈ get_running_servers i st ↔ is_server_running i s st = true.
Proof.
  unfold get_running_servers, is_server_running, tracked.
  destruct (servers st !! i) as [inner|]; cbn.
  - rewrite list_elem_of_fmap. split.
    + intros ([s0 p] & -> & Hin). apply list_elem_of_filter in Hin as [Hal Hin].
      apply elem_of_items in Hin. cbn in *. by rewrite Hin.
    + destruct (inner !! s) as [p|] eqn:Hs; [|done]. intros Hal.
      exists (s, p). split; [done|]. apply list_elem_of_filter. split; [done|].
      by apply elem_of_items.
  - split; [by intros ?%elem_of_nil|done].
Qed.

(** X20. [get_running_servers] lists exactly the servers of the instance
    for which [is_server_running] holds, each of them once. *)
Theorem running_servers_are_the_running_ones (i : string) (st : Manager) :
  (∀ s, s ∈ get_running_servers i st ↔ is_server_running i s st = true) ∧
  NoDup (get_running_servers i st).
Proof.
  split; [intros s; apply running_servers_elem|].
  unfold get_running_servers. destruct (servers st !! i) as [inner|]; [|constructor].
  assert (∀ l : list (string * Proc), NoDup l.*1 →
            NoDup (filter (λ kv, alive kv.2 = true) l).*1) as Hfilter.
  { induction l as [|[k p] l IH]; [done|]. rewrite fmap_cons.
    intros [Hk Hnd]%NoDup_cons.
    rewrite filter_cons. case_decide; [|by apply IH].
    rewrite fmap_cons. apply NoDup_cons. split; [|by apply IH].
    intros Hin. apply Hk. apply list_elem_of_fmap in Hin as ([k' p'] & -> & Hin).
    apply list_elem_of_filter in Hin as [_ Hin].
    apply list_elem_of_fmap. by exists (k', p'). }
  apply Hfilter, (NoDup_keys inner).
Qed.

(** ** Stopping all servers of an instance *)

Lemma stop_all_loop_after_failure (i : string) (names : list string) (st : Manager) :
  stop_all_loop i names false st = (false, st).
Proof. induction names as [|n rest IH]; [done|]. cbn [stop_all_loop]. apply IH. Qed.

Lemma stop_all_loop_tracked_other (i s : string) (names : list string) (b : bool)
    (st : Manager) :
  s ∉ names → tracked i s (stop_all_loop i names b st).2 = tracked i s st.
Proof.
  revert b st. induction names as [|n rest IH]; intros b st Hs; [done|].
  apply not_elem_of_cons in Hs as [Hne Hs].
  cbn [stop_all_loop]. destruct b; [|by apply IH].
  unfold bind. pose proof (stop_server_tracked_other i n i s st) as Hstop.
  destruct (stop_server i n st) as [stopped st1]. cbn [snd] in Hstop.
  rewrite IH by done. apply Hstop. by intros [_ ?].
Qed.

Lemma stop_all_loop_true (i : string) (names : list string) (st : Manager) :
  NoDup names → (stop_all_loop i names true st).1 = true →
  ∀ s, s ∈ names → is_server_running i s (stop_all_loop i names true st).2 = false.
Proof.
  revert st. induction names as [|n rest IH]; intros st Hnd Hok s Hs;
    [by apply elem_of_nil in Hs|].
  apply NoDup_cons in Hnd as [Hn Hnd].
  cbn [stop_all_loop] in *. unfold bind in *.
  pose proof (stop_server_true_not_running i n st) as Hstop.
  destruct (stop_server i n st) as [stopped st1]. cbn [fst snd] in Hstop.
  destruct stopped; [|by rewrite stop_all_loop_after_failure in Hok].
  apply elem_of_cons in Hs as [->|Hs]; [|by apply IH].
  unfold is_server_running. rewrite stop_all_loop_tracked_other by done.
  by apply Hstop.
Qed.

(** X21. When [stop_all_servers] returns true, no server of the instance
    is running any more. *)
Theorem stop_all_true_none_running (i : string) (st : Manager) :
  (stop_all_servers i st).1 = true →
  (∀ s, is_server_running i s (stop_all_servers i st).2 = false) ∧
  get_running_servers i (stop_all_servers i st).2 = [].
Proof.
  intros Hok.
  assert (∀ s, is_server_running i s (stop_all_servers i st).2 = false) as Hnone.
  { intros s. unfold stop_all_servers in *.
    destruct (servers st !! i) as [inner|] eqn:Hi.
    - destruct (decide (s ∈ keys inner)) as [Hin|Hnin].
      + apply stop_all_loop_true; [apply NoDup_keys|done..].
      + unfold is_server_running. rewrite stop_all_loop_tracked_other by done.
        unfold tracked. rewrite Hi. cbn.
        destruct (inner !! s) as [p|] eqn:Hs; [|done].
        exfalso. apply Hnin. apply elem_of_keys. by rewrite Hs.
    - cbn [snd]. unfold is_server_running, tracked. by rewrite Hi. }
  split; [done|]. apply elem_of_nil_inv. intros s Hs.
  apply running_servers_elem in Hs. by rewrite Hnone in Hs.
Qed.

Lemma stop_all_true_none_running_witness :
  (∀ s, is_server_running "alpha" s (stop_all_servers "alpha" memory_started).2 = false) ∧
  get_running_servers "alpha" (stop_all_servers "alpha" memory_started).2 = [].
Proof. apply (stop_all_true_none_running "alpha" memory_started). vm_compute. reflexivity. Defined.

(** ** One pass of [update_server_logs] *)

(** X22. One pass of [update_server_logs] that returns appends to the log
    of a tracked, running process, in order and stripped, the lines it
    reads, which are the lines of the stream up to the first look that
    finds nothing to read or finds a blank line, and then keeps the newest
    1000 lines of the log. *)
Theorem drain_pass_appends (i s : string) (p : Proc) (st : Manager) :
  tracked i s st = Some p → alive p = true →
  (length (get_server_log i s st) ≤ 1000)%nat →
  (update_server_logs st).1 = Returns () →
  get_server_log i s (update_server_logs st).2
    = last_n 1000 (get_server_log i s st ++ lines_read (stdout p)).
Proof.
  intros Htr Hal Hlen Hret. unfold get_server_log in *.
  change (server_logs ?st' !! i ≫= (.!! s)) with (log_at i s st') in *.
  rewrite (update_server_logs_returns i s p) by done. by apply drain_log_lines_read.
Qed.

Lemma drain_pass_appends_witness :
  get_server_log "alpha" "memory" (update_server_logs busy_manager).2
    = last_n 1000 (["earlier"; "first"; "second"]).
Proof.
  apply (drain_pass_appends "alpha" "memory" chatty busy_manager).
  - reflexivity.
  - reflexivity.
  - vm_compute. lia.
  - reflexivity.
Defined.

(** X23. [update_server_logs] reads only from running processes: the log
    of a pair whose process has exited, or of a pair that is not tracked,
    is left as it was, whatever output the process left unread. *)
Theorem drain_skips_exited (i s : string) (st : Manager) :
  is_server_running i s st = false →
  get_server_log i s (update_server_logs st).2 = get_server_log i s st.
Proof.
  unfold is_server_running, get_server_log. intros Hrun.
  change (server_logs ?st' !! i ≫= (.!! s)) with (log_at i s st').
  destruct (update_server_logs_log i s st) as [->|(p & Htr & Hal & _)]; [done|].
  by rewrite Htr, Hal in Hrun.
Qed.

Lemma drain_skips_exited_witness :
  get_server_log "alpha" "repl" (update_server_logs busy_manager).2
    = get_server_log "alpha" "repl" busy_manager.
Proof. apply (drain_skips_exited "alpha" "repl" busy_manager). reflexivity. Defined.

(** ** What holds in every state the manager reaches *)

Lemma keeps_instances_refl (st : Manager) : keeps_instances st st.
Proof. by split. Qed.

Lemma keeps_instances_trans (st1 st2 st3 : Manager) :
  keeps_instances st1 st2 → keeps_instances st2 st3 → keeps_instances st1 st3.
Proof.
  intros [Hs1 Hl1] [Hs2 Hl2]. split.
  - intros k. by rewrite Hs2, Hs1.
  - intros k Hk. by apply Hl2, Hl1.
Qed.

Lemma keeps_instances_agree (st st' : Manager) :
  keeps_instances st st' → tables_agree st → tables_agree st'.
Proof. intros [Hs Hl] Hag k Hk. apply Hl, Hag, Hs, Hk. Qed.

Lemma keeps_instances_foldl {A} (f : Manager → A → Manager) (l : list A) (st : Manager) :
  (∀ st x, keeps_instances st (f st x)) → keeps_instances st (foldl f st l).
Proof.
  intros Hf. revert st. induction l as [|x l IH]; intros st; [apply keeps_instances_refl|].
  cbn [foldl]. eapply keeps_instances_trans; [apply Hf|apply IH].
Qed.

Lemma lookup_alter_is_Some_iff {A} (f : A → A) (m : dict A) (i k : string) :
  is_Some (alter f i m !! k) ↔ is_Some (m !! k).
Proof.
  destruct (decide (i = k)) as [->|Hne].
  - rewrite dict_lookup_alter_eq. by rewrite fmap_is_Some.
  - by rewrite dict_lookup_alter_ne.
Qed.

Lemma append_log_keys (i s line k : string) (logs : dict (dict (list string))) :
  is_Some (logs !! k) → is_Some (append_log i s line logs !! k).
Proof.
  intros Hk. unfold append_log.
  destruct (decide (i = k)) as [->|Hne]; [by rewrite dict_lookup_insert_eq|].
  rewrite dict_lookup_insert_ne by done.
  destruct (logs !! i); [done|]. by rewrite dict_lookup_insert_ne.
Qed.

Lemma read_loop_keeps_instances (fuel : nat) (i s : string) (p : Proc) (st : Manager) :
  servers (read_loop fuel i s p st).2.2 = servers st ∧
  ∀ k, is_Some (server_logs st !! k) →
       is_Some (server_logs (read_loop fuel i s p st).2.2 !! k).
Proof.
  revert p st. induction fuel as [|fuel IH]; intros p st; [done|].
  cbn [read_loop]. destruct (_read_line_nonblock p) as [[[line|]|e] p']; [|done..].
  destruct (nonempty line); [|done].
  destruct (IH p' (emit (server_output s line)
                     (set_server_logs (append_log i s line) st))) as [-> Hl].
  split; [done|]. intros k Hk. apply Hl. cbn. by apply append_log_keys.
Qed.

Lemma read_process_output_keeps (i s : string) (p : Proc) (st : Manager) :
  keeps_instances st
    (set_servers (alter (insert s (_read_process_output i s p st).2.1) i)
       (_read_process_output i s p st).2.2).
Proof.
  unfold _read_process_output.
  pose proof (read_loop_keeps_instances (S (length (stdout p))) i s p st) as [Hs Hl].
  split.
  - intros k. cbn [servers set_servers]. by rewrite lookup_alter_is_Some_iff, Hs.
  - done.
Qed.

Lemma update_instance_logs_keeps (i : string) (l : list (string * Proc)) (st : Manager) :
  keeps_instances st (update_instance_logs i l st).2.
Proof.
  revert st. induction l as [|[s p] l IH]; intros st; [apply keeps_instances_refl|].
  rewrite update_instance_logs_unfold. destruct (alive p); [|apply IH].
  pose proof (read_process_output_keeps i s p st) as Hread.
  destruct (_read_process_output i s p st).1; cbn zeta.
  - eapply keeps_instances_trans; [apply Hread|apply IH].
  - done.
Qed.

Lemma update_server_logs_keeps (st : Manager) :
  keeps_instances st (update_server_logs st).2.
Proof.
  unfold update_server_logs. generalize (items (servers st)). intros l. revert st.
  induction l as [|[i inner] l IH]; intros st; [apply keeps_instances_refl|].
  rewrite update_logs_loop_unfold.
  pose proof (update_instance_logs_keeps i (items inner) st) as Hinner.
  destruct (update_instance_logs i (items inner) st).1; cbn [snd].
  - eapply keeps_instances_trans; [apply Hinner|apply IH].
  - done.
Qed.

Lemma set_inner_keys {A} (i s k : string) (x : A) (d d' : dict (dict A)) :
  set_inner i s x d = Some d' → is_Some (d' !! k) ↔ is_Some (d !! k).
Proof.
  unfold set_inner. destruct (d !! i) as [inner|] eqn:Hi; [|done]. cbn.
  intros [= <-]. destruct (decide (i = k)) as [->|Hne].
  - rewrite dict_lookup_insert_eq, Hi. split; eauto.
  - by rewrite dict_lookup_insert_ne.
Qed.

Lemma set_inner_lookup_any {A} (i s i' s' : string) (x : A)
    (d d' : dict (dict A)) :
  set_inner i s x d = Some d' →
  d' !! i' ≫= (.!! s') = if decide (i' = i ∧ s' = s) then Some x else d !! i' ≫= (.!! s').
Proof.
  unfold set_inner. destruct (d !! i) as [inner|] eqn:Hi; [|done]. cbn.
  intros [= <-]. destruct (decide (i' = i)) as [->|Hne].
  - rewrite dict_lookup_insert_eq, Hi. cbn. destruct (decide (s' = s)) as [->|Hs].
    + by rewrite dict_lookup_insert_eq, decide_True.
    + rewrite dict_lookup_insert_ne by done. rewrite decide_False; [done|]. by intros [_ ?].
  - rewrite dict_lookup_insert_ne by done. rewrite decide_False; [done|]. by intros [? _].
Qed.

Lemma with_instance_agree (i : string) (st : Manager) :
  tables_agree st → tables_agree (with_instance i st).
Proof.
  intros Hag k. unfold with_instance. destruct (servers st !! i) eqn:Hi; [apply Hag|].
  cbn. destruct (decide (i = k)) as [->|Hne].
  - by rewrite !dict_lookup_insert_eq.
  - rewrite !dict_lookup_insert_ne by done. apply Hag.
Qed.

Lemma with_instance_log (i i' s' : string) (st : Manager) :
  log_at i' s' (with_instance i st) = log_at i' s' st ∨
  log_at i' s' (with_instance i st) = None.
Proof.
  unfold with_instance. destruct (servers st !! i); [by left|].
  unfold log_at. cbn. destruct (decide (i = i')) as [->|Hne].
  - right. rewrite dict_lookup_insert_eq. cbn. apply dict_lookup_empty.
  - left. by rewrite dict_lookup_insert_ne.
Qed.

Lemma start_server_keeps (h : Host) (i s : string) (st : Manager) :
  keeps_instances (with_instance i st) (start_server h i s st).2.
Proof.
  unfold start_server. fold (with_instance i st).
  repeat case_match; cbn [snd]; try apply keeps_instances_refl.
  all: split; intros k; cbn [servers server_logs emit set_server_logs set_servers count_launch];
    try done.
  all: try (erewrite set_inner_keys by eassumption; done).
  all: try (intros Hk; erewrite set_inner_keys by eassumption; done).
Qed.

Lemma start_server_log (h : Host) (i s i' s' : string) (st : Manager) (log : list string) :
  log_at i' s' (start_server h i s st).2 = Some log →
  log = [] ∨ log_at i' s' st = Some log.
Proof.
  assert (∀ log', log_at i' s' (with_instance i st) = Some log' →
            log_at i' s' st = Some log') as Hwith.
  { intros log' Hlog. destruct (with_instance_log i i' s' st) as [<-|Hn]; [done|].
    by rewrite Hn in Hlog. }
  unfold start_server. fold (with_instance i st).
  repeat case_match; cbn [snd]; try (intros Hlog; right; by apply Hwith).
  all: unfold log_at in *;
    cbn [servers server_logs emit set_server_logs set_servers count_launch];
    erewrite set_inner_lookup_any by eassumption;
    (case_decide; [intros [= <-]; by left|]); intros Hlog; right; by apply Hwith.
Qed.

Lemma start_server_invariants (h : Host) (i s : string) (st : Manager) :
  tables_agree st ∧ logs_capped st →
  tables_agree (start_server h i s st).2 ∧ logs_capped (start_server h i s st).2.
Proof.
  intros [Hag Hcap]. split.
  - eapply keeps_instances_agree; [apply start_server_keeps|].
    by apply with_instance_agree.
  - intros i' s' log Hlog. apply start_server_log in Hlog as [->|Hlog]; [cbn; lia|].
    by eapply Hcap.
Qed.

Lemma stop_server_invariants (i s : string) (st : Manager) :
  tables_agree st ∧ logs_capped st →
  tables_agree (stop_server i s st).2 ∧ logs_capped (stop_server i s st).2.
Proof.
  intros [Hag Hcap]. split.
  - eapply keeps_instances_agree; [|done]. split.
    + intros k. unfold stop_server.
      destruct (tracked i s st) as [p|]; [|done].
      destruct (alive p); [destruct (reaction p)|]; cbn; try done;
        by rewrite lookup_alter_is_Some_iff.
    + intros k. by rewrite stop_server_logs.
  - intros i' s' log. unfold log_at. rewrite stop_server_logs. apply Hcap.
Qed.

Lemma update_server_logs_invariants (st : Manager) :
  tables_agree st ∧ logs_capped st →
  tables_agree (update_server_logs st).2 ∧ logs_capped (update_server_logs st).2.
Proof.
  intros [Hag Hcap]. split.
  - eapply keeps_instances_agree; [apply update_server_logs_keeps|done].
  - intros i s log.
    assert (length (default [] (log_at i s st)) ≤ 1000)%nat as Hlen.
    { destruct (log_at i s st) as [l0|] eqn:Hl0; [by eapply Hcap|cbn; lia]. }
    destruct (update_server_logs_log i s st) as [->|(p & _ & _ & ->)]; [apply Hcap|].
    intros Hlog. pose proof (drain_log_lines_read (stdout p) _ Hlen) as Hd.
    rewrite Hlog in Hd. cbn [default] in Hd. unfold id in Hd. rewrite Hd.
    apply last_n_length.
Qed.

Lemma start_all_loop_invariants (h : Host) (i : string)
    (items : list (string * ServerConfig)) (b : bool) (st : Manager) :
  tables_agree st ∧ logs_capped st →
  tables_agree (start_all_loop h i items b st).2 ∧
  logs_capped (start_all_loop h i items b st).2.
Proof.
  revert b st. induction items as [|[s sc] rest IH]; intros b st Hinv; [done|].
  cbn [start_all_loop]. destruct (default false (autoStart sc)); [|by apply IH].
  destruct b; [|by apply IH]. unfold bind.
  pose proof (start_server_invariants h i s st Hinv) as Hinv1.
  destruct (start_server h i s st) as [started st1]. by apply IH.
Qed.

Lemma stop_all_loop_invariants (i : string) (names : list string) (b : bool) (st : Manager) :
  tables_agree st ∧ logs_capped st →
  tables_agree (stop_all_loop i names b st).2 ∧ logs_capped (stop_all_loop i names b st).2.
Proof.
  revert b st. induction names as [|s rest IH]; intros b st Hinv; [done|].
  cbn [stop_all_loop]. destruct b; [|by apply IH]. unfold bind.
  pose proof (stop_server_invariants i s st Hinv) as Hinv1.
  destruct (stop_server i s st) as [stopped st1]. by apply IH.
Qed.

(** X24. In every state the manager reaches from a new one, by any calls
    of [start_server], [stop_server], [start_all_servers],
    [stop_all_servers] and [update_server_logs] on any hosts, with the
    tracked processes writing, stalling and exiting in between, every
    instance of the process table has a log table and no log holds more than
    1000 lines. *)
Theorem reachable_invariants (st : Manager) :
  reachable st →
  tables_agree st ∧ logs_capped st ∧
  ∀ i s, (length (get_server_log i s st) ≤ 1000)%nat.
Proof.
  intros Hreach.
  assert (tables_agree st ∧ logs_capped st) as [Hag Hcap].
  { induction Hreach as [|h i s st _ IH|i s st _ IH|h i st _ IH|i st _ IH|st _ IH
                         |i s f st _ IH].
    - split; [apply idle_tables_agree|]. intros i s log Hlog. exfalso. revert Hlog.
      unfold log_at. change (server_logs idle) with (∅ : dict (dict (list string))).
      by rewrite dict_lookup_empty.
    - by apply start_server_invariants.
    - by apply stop_server_invariants.
    - unfold start_all_servers. repeat case_match; try done.
      by apply start_all_loop_invariants.
    - unfold stop_all_servers. case_match; [|done].
      by apply stop_all_loop_invariants.
    - by apply update_server_logs_invariants.
    - destruct IH as [Hag Hcap]. split; [|done].
      intros k. cbn. rewrite lookup_alter_is_Some_iff. apply Hag. }
  split; [done|]. split; [done|].
  intros i s. unfold get_server_log.
  destruct (server_logs st !! i ≫= (.!! s)) as [log|] eqn:Hlog; [|cbn; lia].
  by eapply Hcap.
Qed.

Lemma reachable_invariants_witness :
  tables_agree (update_server_logs memory_started).2 ∧
  logs_capped (update_server_logs memory_started).2 ∧
  ∀ i s, (length (get_server_log i s (update_server_logs memory_started).2) ≤ 1000)%nat.
Proof.
  apply (reachable_invariants (update_server_logs memory_started).2).
  exact (reach_update_server_logs _
           (reach_start_server demo_host "alpha" "memory" idle reach_init)).
Defined.

End ServerManagerMore.

(** * Properties of the template store and of the configuration writers *)

Module TemplateStoreProofs.
Import ServerManager TemplateStore ConfigStore.

Local Open Scope string_scope.
Local Open Scope list_scope.

(** ** [get_config] *)

Lemma insert_after_flag (pre post : list string) (old new : string) :
  <[S (length pre) := new]> (pre ++ "--port" :: old :: post)%list
    = (pre ++ "--port" :: new :: post)%list.
Proof.
  rewrite insert_app_r_alt by lia.
  by replace (S (length pre) - length pre)%nat with 1%nat by lia.
Qed.

Lemma get_config_args_placeholder (template : ServerTemplate) (port : Z)
    (pre post : list string) (old : string) :
  args template = pre ++ "--port" :: old :: post → "--port" ∉ pre → (0 < port)%Z →
  ServerManager.args (get_config template port)
    = Some (pre ++ "--port" :: pretty port :: post).
Proof.
  intros Hargs Hpre Hport. unfold get_config. cbn [ServerManager.args]. rewrite Hargs.
  rewrite bool_decide_eq_true_2 by (apply elem_of_app; right; left).
  rewrite (proj2 (Z.ltb_lt 0 port)) by done. cbn [andb].
  rewrite ServerManagerMore.find_flag by done.
  rewrite (proj2 (Nat.ltb_lt _ _)) by (rewrite length_app; cbn; lia).
  by rewrite insert_after_flag.
Qed.

(** X25. [get_config] copies command, environment and auto-start flag and
    returns an argument list as long as the template's. With a positive
    port it replaces the argument that follows the first ["--port"] by the
    port in decimal; with a port that is not positive, or with no
    ["--port"], or with ["--port"] as the last argument, it returns the
    template's arguments unchanged. *)
Theorem get_config_fills_port (template : ServerTemplate) (port : Z) :
  ServerManager.command (get_config template port) = Some (command template) ∧
  ServerManager.env (get_config template port) = Some (env template) ∧
  ServerManager.autoStart (get_config template port) = Some (auto_start template) ∧
  length (default [] (ServerManager.args (get_config template port)))
    = length (args template) ∧
  ((port ≤ 0)%Z ∨ "--port" ∉ args template ∨
   (∃ pre, args template = pre ++ ["--port"] ∧ "--port" ∉ pre) →
   ServerManager.args (get_config template port) = Some (args template)) ∧
  (∀ pre old post,
     args template = pre ++ "--port" :: old :: post → "--port" ∉ pre → (0 < port)%Z →
     ServerManager.args (get_config template port)
       = Some (pre ++ "--port" :: pretty port :: post)).
Proof.
  split_and!; try done.
  - unfold get_config. cbn [ServerManager.args default].
    destruct (bool_decide _ && _); [|done].
    destruct (list_find _ _) as [[i ?]|]; [|done].
    destruct (S i <? length (args template))%nat; [|done]. unfold id. apply length_insert.
  - unfold get_config. cbn [ServerManager.args].
    intros [Hport|[Hno|(pre & Hargs & Hpre)]].
    + rewrite (proj2 (Z.ltb_ge 0 port)) by done. by rewrite andb_false_r.
    + by rewrite bool_decide_eq_false_2.
    + rewrite Hargs. destruct (bool_decide _ && _); [|done].
      rewrite ServerManagerMore.find_flag by done.
      rewrite (proj2 (Nat.ltb_ge _ _)); [done|]. rewrite length_app. cbn. lia.
  - intros pre old post. apply get_config_args_placeholder.
Qed.

(** X26. What [get_config] writes, [get_port_from_args] reads back: for a
    template whose arguments hold ["--port"] followed by a placeholder and a
    positive port that [int] reads back from its decimal form, the port
    [start_server] extracts from the rendered arguments is that port. *)
Theorem rendered_port_is_read_back (h : Host) (template : ServerTemplate) (port : Z)
    (pre post : list string) (old : string) :
  args template = pre ++ "--port" :: old :: post → "--port" ∉ pre → (0 < port)%Z →
  py_int h (pretty port) = Some port →
  get_port_from_args h (default [] (ServerManager.args (get_config template port))) = port.
Proof.
  intros Hargs Hpre Hport Hint.
  rewrite (get_config_args_placeholder template port pre post old) by done.
  cbn [default]. unfold id.
  rewrite ServerManagerMore.port_from_args_value by done. by rewrite Hint.
Qed.

Lemma rendered_port_is_read_back_witness :
  get_port_from_args demo_host
    (default [] (ServerManager.args
                   (get_config (built_in "Memory" "memory" "@modelcontextprotocol/memory" false)
                               9130))) = 9130%Z.
Proof.
  apply (rendered_port_is_read_back demo_host
           (built_in "Memory" "memory" "@modelcontextprotocol/memory" false) 9130
           ["-y"; "@modelcontextprotocol/memory"] [] "0").
  - reflexivity.
  - intros Hin. repeat (apply elem_of_cons in Hin as [Hin|Hin]; [discriminate Hin|]).
    by apply elem_of_nil in Hin.
  - lia.
  - vm_compute. reflexivity.
Defined.

(** ** The store *)

Example first_run_stocks_built_ins :
  templates (init (λ _, PortManager.Written) Missing) = built_ins ∧
  templates (init (λ _, PortManager.OpenDenied) Garbled) = built_ins ∧
  server_name <$> built_ins = PortManager.known_tools ∧
  get_template_by_server_name "repl" stocked
    = Some (built_in "REPL" "repl" "@modelcontextprotocol/repl" false).
Proof. repeat split; vm_compute; reflexivity. Qed.

(** The first template of a name, by recursion on the list. *)
Lemma find_named_cons (wanted : string) (t : ServerTemplate) (l : list ServerTemplate) :
  snd <$> list_find (λ t, name t = wanted) (t :: l)
    = if decide (name t = wanted) then Some t
      else snd <$> list_find (λ t, name t = wanted) l.
Proof.
  cbn [list_find]. destruct (decide (name t = wanted)); [done|].
  by destruct (list_find (λ t, name t = wanted) l) as [[? ?]|].
Qed.

Lemma find_named_absent (wanted : string) (l : list ServerTemplate) :
  wanted ∉ (name <$> l) → snd <$> list_find (λ t, name t = wanted) l = None.
Proof.
  induction l as [|t l IH]; [done|]. rewrite fmap_cons, not_elem_of_cons.
  intros [Hne Hl]. rewrite find_named_cons, decide_False by done. by apply IH.
Qed.

Lemma find_named_present (wanted : string) (l : list ServerTemplate) :
  wanted ∈ (name <$> l) → is_Some (snd <$> list_find (λ t, name t = wanted) l).
Proof.
  induction l as [|t l IH]; [intros Hin; by apply elem_of_nil in Hin|].
  rewrite fmap_cons, elem_of_cons, find_named_cons.
  destruct (decide (name t = wanted)); [eauto|]. intros [?|?]; [congruence|by apply IH].
Qed.

Lemma find_named_snoc (wanted : string) (l : list ServerTemplate) (t : ServerTemplate) :
  snd <$> list_find (λ t, name t = wanted) (l ++ [t])
    = match snd <$> list_find (λ t, name t = wanted) l with
      | Some t' => Some t'
      | None => if decide (name t = wanted) then Some t else None
      end.
Proof.
  induction l as [|t' l IH].
  - cbn [app]. rewrite find_named_cons. by destruct (decide (name t = wanted)).
  - rewrite <- app_comm_cons, !find_named_cons.
    by destruct (decide (name t' = wanted)).
Qed.

Lemma remove_first_names (wanted : string) (l : list ServerTemplate) :
  NoDup (name <$> l) →
  NoDup (name <$> remove_first wanted l) ∧
  (wanted ∉ (name <$> remove_first wanted l)) ∧
  (∀ other, other ≠ wanted →
     (snd <$> list_find (λ t, name t = other) (remove_first wanted l))
       = (snd <$> list_find (λ t, name t = other) l)).
Proof.
  induction l as [|t l IH].
  { intros _. split_and!; [constructor|apply not_elem_of_nil|done]. }
  rewrite fmap_cons. intros [Ht Hnd]%NoDup_cons. cbn [remove_first].
  destruct (IH Hnd) as (IH1 & IH2 & IH3).
  destruct (decide (name t = wanted)) as [Heq|Hne].
  - split_and!; [done|by rewrite <- Heq|].
    intros other Hother. rewrite find_named_cons, decide_False; [done|congruence].
  - rewrite fmap_cons. split_and!.
    + apply NoDup_cons. split; [|done]. intros Hin. apply Ht.
      clear -Hin. induction l as [|t' l IHl]; [done|]. cbn [remove_first] in Hin.
      destruct (decide (name t' = wanted)).
      * rewrite fmap_cons. by right.
      * rewrite fmap_cons in *. apply elem_of_cons in Hin as [->|Hin]; [left|right; auto].
    + apply not_elem_of_cons. split; [congruence|done].
    + intros other Hother. rewrite !find_named_cons.
      destruct (decide (name t = other)); [done|]. by apply IH3.
Qed.

Lemma save_templates_templates (wr : nat → PortManager.WriteResult) (st : Store) :
  templates (_save_templates wr st).2 = templates st.
Proof. unfold _save_templates. by destruct (wr (writes st)). Qed.

Lemma add_template_templates (wr : nat → PortManager.WriteResult) (template : ServerTemplate)
    (st : Store) :
  templates (add_template wr template st).2 = added template (templates st).
Proof.
  unfold add_template, added, get_template. cbn [snd].
  rewrite save_templates_templates. cbn [templates set_templates].
  by destruct (snd <$> list_find _ (templates st)).
Qed.

Lemma added_names (template : ServerTemplate) (l : list ServerTemplate) :
  NoDup (name <$> l) →
  NoDup (name <$> added template l) ∧
  snd <$> list_find (λ t, name t = name template) (added template l) = Some template ∧
  ∀ other, other ≠ name template →
    (snd <$> list_find (λ t, name t = other) (added template l))
      = (snd <$> list_find (λ t, name t = other) l).
Proof.
  intros Hnd. unfold added.
  destruct (snd <$> list_find (λ t, name t = name template) l) as [t0|] eqn:Hfind.
  - destruct (remove_first_names (name template) l Hnd) as (H1 & H2 & H3).
    split_and!.
    + rewrite fmap_app. apply NoDup_app. split_and!; [done| |by apply NoDup_singleton].
      intros x Hx Hx'. cbn in Hx'. apply list_elem_of_singleton in Hx' as ->. by apply H2.
    + rewrite find_named_snoc, find_named_absent by done. by rewrite decide_True.
    + intros other Hother. rewrite find_named_snoc, H3 by done.
      destruct (snd <$> list_find (λ t, name t = other) l); [done|].
      by rewrite decide_False by congruence.
  - assert (name template ∉ (name <$> l)) as Hnot.
    { intros Hin. apply find_named_present in Hin as [? Hin]. by rewrite Hfind in Hin. }
    split_and!.
    + rewrite fmap_app. apply NoDup_app. split_and!; [done| |by apply NoDup_singleton].
      intros x Hx Hx'. cbn in Hx'. apply list_elem_of_singleton in Hx' as ->. by apply Hnot.
    + rewrite find_named_snoc, Hfind. by rewrite decide_True.
    + intros other Hother. rewrite find_named_snoc.
      destruct (snd <$> list_find (λ t, name t = other) l); [done|].
      by rewrite decide_False by congruence.
Qed.

(** X27. In a store whose template names are unique, [add_template] puts
    the template under its name, replacing the one that had the name:
    afterwards [get_template] of that name returns the new template, every
    other name returns what it returned before, and the names are still
    unique. *)
Theorem add_template_then_get (wr : nat → PortManager.WriteResult)
    (template : ServerTemplate) (st : Store) :
  unique_names st →
  (add_template wr template st).1 = true ∧
  get_template (name template) (add_template wr template st).2 = Some template ∧
  (∀ other, other ≠ name template →
     get_template other (add_template wr template st).2 = get_template other st) ∧
  unique_names (add_template wr template st).2.
Proof.
  intros Hnd. unfold unique_names, get_template in *.
  rewrite add_template_templates.
  destruct (added_names template (templates st) Hnd) as (H1 & H2 & H3). done.
Qed.

Lemma stocked_unique : unique_names stocked.
Proof. apply (bool_decide_unpack _). vm_compute. exact I. Qed.

Lemma add_template_then_get_witness :
  (add_template (λ _, PortManager.Written)
     (built_in "Memory" "memory" "@modelcontextprotocol/server-memory" true) stocked).1 = true ∧
  get_template "Memory"
    (add_template (λ _, PortManager.Written)
       (built_in "Memory" "memory" "@modelcontextprotocol/server-memory" true) stocked).2
    = Some (built_in "Memory" "memory" "@modelcontextprotocol/server-memory" true) ∧
  (∀ other, other ≠ "Memory" →
     get_template other
       (add_template (λ _, PortManager.Written)
          (built_in "Memory" "memory" "@modelcontextprotocol/server-memory" true) stocked).2
     = get_template other stocked) ∧
  unique_names
    (add_template (λ _, PortManager.Written)
       (built_in "Memory" "memory" "@modelcontextprotocol/server-memory" true) stocked).2.
Proof.
  apply (add_template_then_get (λ _, PortManager.Written)
           (built_in "Memory" "memory" "@modelcontextprotocol/server-memory" true) stocked).
  apply stocked_unique.
Defined.

(** X28. In a store whose template names are unique, [remove_template]
    returns true exactly when a template of that name exists; afterwards no
    template has the name, every other name returns what it returned before
    and the names are still unique. A name that is not there leaves the
    store, and its file, untouched. *)
Theorem remove_template_then_get (wr : nat → PortManager.WriteResult)
    (wanted : string) (st : Store) :
  unique_names st →
  (remove_template wr wanted st).1 = bool_decide (is_Some (get_template wanted st)) ∧
  get_template wanted (remove_template wr wanted st).2 = None ∧
  (∀ other, other ≠ wanted →
     get_template other (remove_template wr wanted st).2 = get_template other st) ∧
  unique_names (remove_template wr wanted st).2 ∧
  (get_template wanted st = None → (remove_template wr wanted st).2 = st).
Proof.
  intros Hnd. unfold unique_names, remove_template in *.
  destruct (get_template wanted st) as [t0|] eqn:Hfind.
  - cbn [fst snd]. unfold get_template. rewrite save_templates_templates.
    cbn [templates set_templates].
    destruct (remove_first_names wanted (templates st) Hnd) as (H1 & H2 & H3).
    split_and!; [done|by apply find_named_absent|done|done|done].
  - cbn [fst snd]. split_and!; done.
Qed.

Lemma remove_template_then_get_witness :
  (remove_template (λ _, PortManager.Written) "REPL" stocked).1
    = bool_decide (is_Some (get_template "REPL" stocked)) ∧
  get_template "REPL" (remove_template (λ _, PortManager.Written) "REPL" stocked).2 = None ∧
  (∀ other, other ≠ "REPL" →
     get_template other (remove_template (λ _, PortManager.Written) "REPL" stocked).2
       = get_template other stocked) ∧
  unique_names (remove_template (λ _, PortManager.Written) "REPL" stocked).2 ∧
  (get_template "REPL" stocked = None →
   (remove_template (λ _, PortManager.Written) "REPL" stocked).2 = stocked).
Proof.
  apply (remove_template_then_get (λ _, PortManager.Written) "REPL" stocked).
  apply stocked_unique.
Defined.

Lemma from_dict_to_dict (t : ServerTemplate) : from_dict (to_dict t) = t.
Proof. by destruct t. Qed.

Lemma load_after_save (wr : nat → PortManager.WriteResult) (st : Store) :
  wr (writes st) = PortManager.Written →
  _load_templates (_save_templates wr st).2 = templates st.
Proof.
  intros Hwr. unfold _save_templates, _load_templates. rewrite Hwr. cbn.
  rewrite <- list_fmap_compose. rewrite <- (list_fmap_id (templates st)) at 2.
  apply list_fmap_ext. intros _ t _. apply from_dict_to_dict.
Qed.

(** X29. When the writes succeed, the file mirrors the store after every
    change: reading mcp_templates.json back after [add_template], or after
    a [remove_template] that found the name, gives exactly the templates
    held in memory, in the same order. *)
Theorem file_mirrors_store (wr : nat → PortManager.WriteResult)
    (template : ServerTemplate) (wanted : string) (st : Store) :
  writes_succeed wr →
  _load_templates (add_template wr template st).2
    = templates (add_template wr template st).2 ∧
  (is_Some (get_template wanted st) →
   _load_templates (remove_template wr wanted st).2
     = templates (remove_template wr wanted st).2).
Proof.
  intros Hwr. split.
  - unfold add_template. cbn [snd]. rewrite load_after_save by apply Hwr.
    by rewrite save_templates_templates.
  - intros [t0 Hfind]. unfold remove_template. rewrite Hfind. cbn [snd].
    rewrite load_after_save by apply Hwr. by rewrite save_templates_templates.
Qed.

Lemma file_mirrors_store_witness :
  _load_templates
    (add_template (λ _, PortManager.Written)
       (built_in "Memory" "memory" "@modelcontextprotocol/server-memory" true) stocked).2
  = templates
      (add_template (λ _, PortManager.Written)
         (built_in "Memory" "memory" "@modelcontextprotocol/server-memory" true) stocked).2 ∧
  (is_Some (get_template "REPL" stocked) →
   _load_templates (remove_template (λ _, PortManager.Written) "REPL" stocked).2
     = templates (remove_template (λ _, PortManager.Written) "REPL" stocked).2).
Proof.
  apply (file_mirrors_store (λ _, PortManager.Written)
           (built_in "Memory" "memory" "@modelcontextprotocol/server-memory" true)
           "REPL" stocked).
  intros n. reflexivity.
Defined.

(** ** Deploying a template *)







End TemplateStoreProofs.
